(** * Incident reconstruction pipeline: source classifier and incident aggregator

  A shallow embedding of

  - [processSources] of [src/api/incidents/middleware/index.js]
    (the citation classifier), and
  - the handler of [GET /showallincidents] of the incidents router
    (the in-memory join of incidents, types of force, links and sources),

  together with the properties of the two that the specification states.

  JavaScript strings are modelled as [string]: sequences of 8-bit characters,
  one character for one code unit, which is what [split] and [length] count
  (citations are URLs, hence ASCII).  Numbers are modelled as integers: the
  join only compares the keys [incident_id] and [type_of_force_id]. *)

From stdpp Require Import gmap strings list fin_maps.


(** ** Outcomes of a JavaScript computation *)

Inductive error :=
| TypeError        (* property access on undefined or null *)
| ReferenceError   (* read of an unbound global *)
| IllShaped.       (* a value outside the row shape the model covers *)

Inductive outcome (A : Type) :=
| Return (a : A)
| Throw (e : error).
Arguments Return {A} a.
Arguments Throw {A} e.

(** A computation that reads and writes a state of type [S] and may throw. *)
Definition St (S A : Type) : Type := S → outcome (A * S).

#[global] Instance St_ret {S} : MRet (St S) := λ A a s, Return (a, s).
#[global] Instance St_bind {S} : MBind (St S) := λ A B f m s,
  match m s with
  | Return (a, s') => f a s'
  | Throw e => Throw e
  end.

(** A computation that does not touch the state. *)
Definition lift {S A} (o : outcome A) : St S A := λ s,
  match o with
  | Return a => Return (a, s)
  | Throw e => Throw e
  end.

(** [xs.forEach(f)] where [f] also updates the local array [acc]. *)
Fixpoint foldM {S A B} (f : B → A → St S B) (acc : B) (xs : list A) : St S B :=
  match xs with
  | [] => mret acc
  | x :: rest => acc' ← f acc x; foldM f acc' rest
  end.

(** [xs.forEach(f)] *)
Definition forEach {S A} (xs : list A) (f : A → St S unit) : St S unit :=
  foldM (λ _ x, f x) tt xs.

(** ** String primitives of the host language *)

Module JsString.

(** [strip_prefix p s] is the rest of [s] after a leading [p]. *)
Fixpoint strip_prefix (p s : string) : option string :=
  match p, s with
  | EmptyString, _ => Some s
  | String a p', String b s' =>
      if Ascii.eqb a b then strip_prefix p' s' else None
  | String _ _, EmptyString => None
  end.

Definition starts_with (p s : string) : bool :=
  match strip_prefix p s with Some _ => true | None => false end.

Definition cons_head (c : Ascii.ascii) (pieces : list string) : list string :=
  match pieces with
  | [] => [String c ""]
  | p :: ps => String c p :: ps
  end.

(** Scan [s] from the left; [skip] counts the characters of a separator
    occurrence that are still to be dropped.  Occurrences are found left to
    right and do not overlap. *)
Fixpoint split_go (sep : string) (skip : nat) (s : string) : list string :=
  match s with
  | EmptyString => [""]
  | String c s' =>
      match skip with
      | S k => split_go sep k s'
      | O =>
          if starts_with sep s
          then "" :: split_go sep (String.length sep - 1) s'
          else cons_head c (split_go sep 0 s')
      end
  end.

Fixpoint chars (s : string) : list string :=
  match s with
  | EmptyString => []
  | String c s' => String c "" :: chars s'
  end.

(** [String.prototype.split] with a string separator and no limit. *)
Definition split (sep s : string) : list string :=
  match sep with
  | EmptyString => chars s
  | String _ _ => split_go sep 0 s
  end.
#[global] Arguments split : simpl never.

End JsString.

(** ** The source classifier *)

Module Classifier.
Import JsString.

(** The object literal [{ src_url, src_type }]. *)
Record source_obj := { src_url : string; src_type : string }.

(** A JavaScript value that is a string or [undefined]. *)
Definition jsstr := option string.

(** [if (comps)]: [undefined] and the empty string are falsy. *)
Definition truthy (v : jsstr) : bool :=
  match v with
  | Some (String _ _) => true
  | _ => false
  end.

(** [v.length] of a value that may be [undefined]. *)
Definition with_string {A} (v : jsstr) (k : string → outcome A) : outcome A :=
  match v with
  | Some s => k s
  | None => Throw TypeError
  end.

(** The value of the variable [url] when the [switch] is reached
    (lines 43-62 of the middleware). *)
Definition host_token (source : string) : outcome jsstr :=
  let comps := split "https://www." source !! 1%nat in
  if truthy comps then
    with_string comps (λ comps, Return (split ".com" comps !! 0%nat))
  else
    let components := split "https://" source !! 1%nat in
    match components with
    | None => Return (Some "")
    | Some components =>
        with_string (split ".com" components !! 0%nat) (λ components2,
          if (11 <? String.length components2)%nat then
            with_string (split ".org" components2 !! 0%nat) (λ comps3,
              if (10 <? String.length comps3)%nat
              then Return (split "." comps3 !! 0%nat)
              else Return (Some comps3))
          else Return (Some components2))
    end.

Definition video_hosts : list string :=
  ["youtube"; "whyy"; "youtu"; "clips"; "tuckbot"; "peertube"; "drive";
   "m"; "getway"].
Definition post_hosts : list string :=
  ["instagram"; "twitter"; "reddit"; "papost"; "mobile"; "nyc"; "v"].
Definition court_document_hosts : list string := ["nlg-la"; "ewscripps"].
Definition image_hosts : list string := ["i"; "ibb"; "photos"].
Definition police_report_hosts : list string := ["doverpolice"; "dsp"].

Definition case_of (labels : list string) (url : jsstr) : bool :=
  match url with
  | Some u => bool_decide (u ∈ labels)
  | None => false
  end.

(** The [switch (url)] of lines 63-100. *)
Definition switch_url (url : jsstr) : string :=
  if case_of video_hosts url then "video"
  else if case_of post_hosts url then "post"
  else if case_of court_document_hosts url then "court_document"
  else if case_of image_hosts url then "image"
  else if case_of police_report_hosts url then "police_report"
  else "article".

(** The body of the [forEach] callback up to the [push]: the record built
    for one citation. *)
Definition classify (source : string) : outcome source_obj :=
  match host_token source with
  | Return url => Return {| src_url := source; src_type := switch_url url |}
  | Throw e => Throw e
  end.

(** The global scope as far as [processSources] uses it: the binding
    [incident_src], which line 38 assigns without declaring it.  The binding
    and the value returned at line 105 are the same array. *)
Record globals := { incident_src : option (list source_obj) }.

Abbreviation G := (St globals) (only parsing).

(** [incident_src = arr] *)
Definition assign_incident_src (arr : list source_obj) : G unit :=
  λ _, Return (tt, {| incident_src := Some arr |}).

(** [incident_src] *)
Definition read_incident_src : G (list source_obj) :=
  λ g, match incident_src g with
       | Some arr => Return (arr, g)
       | None => Throw ReferenceError
       end.

(** [incident_src.push(s)] *)
Definition push_incident_src (s : source_obj) : G unit :=
  arr ← read_incident_src; assign_incident_src (arr ++ [s]).

(** The callback of [sources.forEach], lines 39-103. *)
Definition callback (source : string) : G unit :=
  s ← lift (classify source); push_incident_src s.

Definition processSources (sources : list string) : G (list source_obj) :=
  assign_incident_src [];;
  forEach sources callback;;
  read_incident_src.

Definition src_types : list string :=
  ["video"; "post"; "court_document"; "image"; "police_report"; "article"].

Definition table_keys : list string :=
  video_hosts ++ post_hosts ++ court_document_hosts ++ image_hosts
    ++ police_report_hosts.

End Classifier.


(** ** Objects, arrays and the store they live in *)

Module Store.

(** Objects are named by their index in the store. *)
Abbreviation loc := nat (only parsing).

(** Values held in variables, properties and array slots.  Objects and
    arrays are held by reference. *)
Inductive value :=
  | VUndef
  | VNull
  | VBool (b : bool)
  | VNum (n : Z)
  | VStr (s : string)
  | VRef (l : loc).

#[global] Instance value_eq_dec : EqDecision value.
Proof. solve_decision. Defined.

Inductive cell :=
  | Object (props : gmap string value)
  | Array (items : list value).

(** The store is only ever extended: a fresh object gets the next index. *)
Abbreviation heap := (list cell) (only parsing).

Abbreviation M := (St (list cell)) (only parsing).

(** [a === b] *)
Definition strict_eq (a b : value) : bool := bool_decide (a = b).

(** [p.k] on an own property map: an absent key reads as [undefined]. *)
Definition field (props : gmap string value) (k : string) : value :=
  default VUndef (props !! k).

(** The object a row value refers to. *)
Definition deref (v : value) : M (loc * gmap string value) := λ h,
  match v with
  | VUndef | VNull => Throw TypeError
  | VRef l =>
      match h !! l with
      | Some (Object props) => Return ((l, props), h)
      | _ => Throw IllShaped
      end
  | _ => Throw IllShaped
  end.

(** [v.k] *)
Definition get_prop (v : value) (k : string) : M value :=
  '(_, props) ← deref v; mret (field props k).

(** [{ ...v }]: the own properties of [v]. *)
Definition spread (v : value) : M (gmap string value) :=
  '(_, props) ← deref v; mret props.

Definition store (l : loc) (c : cell) : M unit := λ h,
  Return (tt, <[l := c]> h).

(** [v[k] = x] *)
Definition set_prop (v : value) (k : string) (x : value) : M unit :=
  '(l, props) ← deref v; store l (Object (<[k := x]> props)).

(** [[]]: a fresh array. *)
Definition new_array : M value := λ h,
  Return (VRef (length h), h ++ [Array []]).

(** [arr.push(x)] *)
Definition push (arr : value) (x : value) : M unit := λ h,
  match arr with
  | VUndef | VNull => Throw TypeError
  | VRef l =>
      match h !! l with
      | Some (Array items) => Return (tt, <[l := Array (items ++ [x])]> h)
      | _ => Throw IllShaped
      end
  | _ => Throw IllShaped
  end.

End Store.

(** ** The incident aggregator *)

Module Aggregator.
Import Store.

(** Lines 76-82: [tagsArray], one copy of the type of force per link that
    names it.  The copies never leave the handler and are not written
    again, so they are held by value. *)
Definition build_tags (tofTypes typeLinks : list value)
  : M (list (gmap string value)) :=
  foldM (λ tagsArray tof,
    foldM (λ tagsArray connection,
      a ← get_prop connection "type_of_force_id";
      b ← get_prop tof "type_of_force_id";
      if strict_eq a b then
        props ← spread tof;
        i ← get_prop connection "incident_id";
        mret (tagsArray ++ [<["incident_id" := i]> props])
      else mret tagsArray) tagsArray typeLinks) [] tofTypes.

(** Lines 84-91. *)
Definition attach_categories (tagsArray : list (gmap string value))
    (incidents : list value) : M unit :=
  forEach incidents (λ incident,
    arr ← new_array;
    set_prop incident "categories" arr;;
    forEach tagsArray (λ tag,
      b ← get_prop incident "incident_id";
      if strict_eq (field tag "incident_id") b then
        c ← get_prop incident "categories";
        push c (field tag "type_of_force")
      else mret tt)).

(** Lines 94-103; the result is [responseArray]. *)
Definition attach_sources (sources incidents : list value) : M (list value) :=
  foldM (λ responseArray incident,
    arr ← new_array;
    set_prop incident "src" arr;;
    forEach sources (λ source,
      a ← get_prop source "incident_id";
      b ← get_prop incident "incident_id";
      if strict_eq a b then
        c ← get_prop incident "src";
        push c source
      else mret tt);;
    mret (responseArray ++ [incident])) [] incidents.

(** The body of the [try] block of [GET /showallincidents], from the four
    fetched collections to the array handed to [res.json].  The four
    collections are only iterated, so they are lists of values; the rows in
    them live in the store. *)
Definition showallincidents (incidents sources tofTypes typeLinks : list value)
  : M (list value) :=
  tagsArray ← build_tags tofTypes typeLinks;
  attach_categories tagsArray incidents;;
  attach_sources sources incidents.

(** The same under the name and the argument order of the specification. *)
Definition aggregate (incidents tagDefs tagLinks sources : list value)
  : M (list value) :=
  showallincidents incidents sources tagDefs tagLinks.

(** *** Reading a store *)

(** The own properties of the row [v] in [h] (none if [v] is no row). *)
Definition props_of (h : heap) (v : value) : gmap string value :=
  match v with
  | VRef l => match h !! l with Some (Object props) => props | _ => ∅ end
  | _ => ∅
  end.

Definition prop_of (h : heap) (v : value) (k : string) : value :=
  field (props_of h v) k.

(** The slots of the array [v] refers to in [h]. *)
Definition items_of (h : heap) (v : value) : option (list value) :=
  match v with
  | VRef l => match h !! l with Some (Array items) => Some items | _ => None end
  | _ => None
  end.

Definition is_row (h : heap) (v : value) : Prop :=
  ∃ l props, v = VRef l ∧ h !! l = Some (Object props).

Definition rows (h : heap) (vs : list value) : Prop := Forall (is_row h) vs.

End Aggregator.

(** ** Definitions used to state the properties *)

Module ClassifierSpec.
Import JsString Classifier.

(** The text of [s] before the first occurrence of [sep]; all of [s] when
    [sep] does not occur. *)
Fixpoint text_before (sep s : string) : string :=
  if starts_with sep s then ""
  else match s with
       | EmptyString => ""
       | String c s' => String c (text_before sep s')
       end.

(** The token the classifier looks up for a URL that begins with
    [https://www.] and continues with [rest]. *)
Definition www_token (rest : string) : string :=
  match text_before "https://www." rest with
  | EmptyString => "www."
  | String _ _ as segment => text_before ".com" segment
  end.

Definition unbound : globals := {| incident_src := None |}.

End ClassifierSpec.

Module AggregatorSpec.
Import Store Aggregator.

(** *** What the three loops compute *)

(** The copies pushed on [tagsArray] while the type of force [tof] is
    visited. *)
Definition tags_for (h : heap) (tof : value) (typeLinks : list value)
  : list (gmap string value) :=
  flat_map (λ connection,
    if strict_eq (prop_of h connection "type_of_force_id")
                 (prop_of h tof "type_of_force_id")
    then [<["incident_id" := prop_of h connection "incident_id"]> (props_of h tof)]
    else []) typeLinks.

Definition tags_of (h : heap) (tofTypes typeLinks : list value)
  : list (gmap string value) :=
  flat_map (λ tof, tags_for h tof typeLinks) tofTypes.

(** The labels pushed for an incident whose [incident_id] is [id]. *)
Definition categories_for (tagsArray : list (gmap string value)) (id : value)
  : list value :=
  flat_map (λ tag,
    if strict_eq (field tag "incident_id") id
    then [field tag "type_of_force"] else []) tagsArray.

(** The sources pushed for an incident whose [incident_id] is [id]. *)
Definition sources_for (h : heap) (sources : list value) (id : value)
  : list value :=
  flat_map (λ source,
    if strict_eq (prop_of h source "incident_id") id
    then [source] else []) sources.

(** The store after one incident got a fresh array: the array is the new
    last cell, and the property [k] of the incident refers to it. *)
Definition attach (k : string) (items : list value) (l : loc)
    (props : gmap string value) (h : heap) : heap :=
  <[l := Object (<[k := VRef (length h)]> props)]> (h ++ [Array items]).

Definition attach_step (k : string)
    (content : heap → gmap string value → list value)
    (h : heap) (incident : value) : heap :=
  match incident with
  | VRef l =>
      match h !! l with
      | Some (Object props) => attach k (content h props) l props h
      | _ => h
      end
  | _ => h
  end.

Definition attach_all (k : string)
    (content : heap → gmap string value → list value)
    (h : heap) (incidents : list value) : heap :=
  foldl (attach_step k content) h incidents.

Definition categories_content (tagsArray : list (gmap string value))
  : heap → gmap string value → list value :=
  λ _ props, categories_for tagsArray (field props "incident_id").

Definition src_content (sources : list value)
  : heap → gmap string value → list value :=
  λ h props, sources_for h sources (field props "incident_id").

(** The store [aggregate] leaves behind. *)
Definition final_heap (h : heap) (incidents tagDefs tagLinks sources : list value)
  : heap :=
  attach_all "src" (src_content sources)
    (attach_all "categories"
       (categories_content (tags_of h tagDefs tagLinks)) h incidents)
    incidents.

(** *** Reading the result *)

(** The [categories] and the [src] of a record in a store. *)
Definition categories_in (h : heap) (record : value) : option (list value) :=
  items_of h (prop_of h record "categories").
Definition src_in (h : heap) (record : value) : option (list value) :=
  items_of h (prop_of h record "src").

(** A link and a type of force name each other. *)
Definition resolves (h : heap) (connection tof : value) : bool :=
  strict_eq (prop_of h connection "type_of_force_id")
            (prop_of h tof "type_of_force_id").

(** A link or a source belongs to an incident. *)
Definition belongs (h : heap) (row incident : value) : bool :=
  strict_eq (prop_of h row "incident_id") (prop_of h incident "incident_id").

(** The categories of an incident, read off the three collections: the
    types of force in their order, and for each of them the links in
    theirs. *)
Definition categories_of (h : heap) (tagDefs tagLinks : list value)
    (incident : value) : list value :=
  flat_map (λ tof,
    flat_map (λ connection,
      if resolves h connection tof && belongs h connection incident
      then [prop_of h tof "type_of_force"] else []) tagLinks) tagDefs.

(** The categories as the specification words them: the links in their
    order, and for each of them the types of force it resolves to. *)
Definition categories_by_link (h : heap) (tagDefs tagLinks : list value)
    (incident : value) : list value :=
  flat_map (λ connection,
    flat_map (λ tof,
      if resolves h connection tof && belongs h connection incident
      then [prop_of h tof "type_of_force"] else []) tagDefs) tagLinks.

Definition src_of (h : heap) (sources : list value) (incident : value)
  : list value :=
  filter (λ source, belongs h source incident = true) sources.

(** How many links join the type of force [tof] to [incident]. *)
Definition link_count (h : heap) (tagLinks : list value) (tof incident : value)
  : nat :=
  length (filter (λ connection,
    resolves h connection tof && belongs h connection incident = true) tagLinks).

Definition count_of (x : value) (xs : list value) : nat :=
  length (filter (λ y, y = x) xs).

(** [is_row] and [rows] as tests. *)
Definition is_rowb (h : heap) (v : value) : bool :=
  match v with
  | VRef l => match h !! l with Some (Object _) => true | _ => false end
  | _ => false
  end.
Definition rowsb (h : heap) (vs : list value) : bool := forallb (is_rowb h) vs.

(** The store while the array of the incident at [l] is being filled: the
    incident has its new property, the array is the last cell. *)
Definition filling (k : string) (l : loc) (props : gmap string value)
    (h : heap) (acc : list value) : heap :=
  <[length h := Array acc]>
    (<[l := Object (<[k := VRef (length h)]> props)]> (h ++ [Array []])).

(** Every row of [h0] is still a row of [h] and reads the same
    [incident_id]. *)
Definition id_stable (h0 h : heap) : Prop :=
  ∀ v, is_row h0 v →
    is_row h v ∧ prop_of h v "incident_id" = prop_of h0 v "incident_id".

(** The store after the incidents in [done] got, from the store [h0] on,
    an array each under the property [k]; [C] gives the slots of the array
    from the properties the incident had in [h0]. *)
Record attached (k : string) (C : gmap string value → list value)
    (h0 : heap) (done : list value) (h : heap) : Prop := {
  attached_length : length h0 ≤ length h;
  attached_frame : ∀ l,
    l < length h0 → VRef l ∉ done → h !! l = h0 !! l;
  attached_incident : ∀ l props0,
    VRef l ∈ done → h0 !! l = Some (Object props0) →
    ∃ la, length h0 ≤ la ∧ la < length h
          ∧ h !! l = Some (Object (<[k := VRef la]> props0))
          ∧ h !! la = Some (Array (C props0))
}.

(** The store [aggregate] leaves behind, cell by cell. *)
Record aggregated (h : heap) (incidents tagDefs tagLinks sources : list value)
    (h' : heap) : Prop := {
  aggregated_length : length h ≤ length h';
  aggregated_frame : ∀ l,
    l < length h → VRef l ∉ incidents → h' !! l = h !! l;
  aggregated_incident : ∀ l props,
    VRef l ∈ incidents → h !! l = Some (Object props) →
    ∃ lc ls,
      length h ≤ lc ∧ length h ≤ ls
      ∧ h' !! l = Some (Object (<["src" := VRef ls]>
                                (<["categories" := VRef lc]> props)))
      ∧ h' !! lc = Some (Array (categories_of h tagDefs tagLinks (VRef l)))
      ∧ h' !! ls = Some (Array (src_of h sources (VRef l)))
}.

End AggregatorSpec.

Module AggregatorInputs.
Import Store Aggregator.

Definition incident1 : cell :=
  Object (<["incident_id" := VNum 1]> (<["id" := VStr "wa-olympia-1"]> ∅)).
Definition tear_gas : cell :=
  Object (<["type_of_force_id" := VNum 1]> (<["type_of_force" := VStr "tear_gas"]> ∅)).
Definition baton : cell :=
  Object (<["type_of_force_id" := VNum 2]> (<["type_of_force" := VStr "baton"]> ∅)).
Definition link11 : cell :=
  Object (<["type_of_force_id" := VNum 1]> (<["incident_id" := VNum 1]> ∅)).
Definition link21 : cell :=
  Object (<["type_of_force_id" := VNum 2]> (<["incident_id" := VNum 1]> ∅)).
Definition link31 : cell :=
  Object (<["type_of_force_id" := VNum 3]> (<["incident_id" := VNum 1]> ∅)).
Definition source1 : cell :=
  Object (<["src_id" := VNum 1]> (<["incident_id" := VNum 1]>
         (<["src_url" := VStr "https://twitter.com/x"]>
         (<["src_type" := VStr "post"]> ∅)))).

(** One incident, two types of force, three links (the last one names a
    type of force that does not exist), one source, and one more link
    with the keys of the first. *)
Definition h0 : heap :=
  [incident1; tear_gas; baton; link11; link21; link31; source1; link11].

Definition the_incident : value := VRef 0.
Definition def_tear_gas : value := VRef 1.
Definition def_baton : value := VRef 2.
Definition link_tear_gas : value := VRef 3.
Definition link_baton : value := VRef 4.
Definition link_dangling : value := VRef 5.
Definition the_source : value := VRef 6.
Definition link_tear_gas_again : value := VRef 7.

End AggregatorInputs.

(** ** The rest of the middleware and the reply of the handler *)

Module Middleware.
Import Store.

(** Line 13. *)
Definition incident_keys : list string :=
  ["title"; "desc"; "city"; "state"; "lat"; "long"; "date"; "tags"; "src"].

(** [incident.hasOwnProperty(k)].  The method is found on the prototype
    unless the object has an own property of that name; no value of the
    model is a function, so calling such a property throws. *)
Definition hasOwnProperty (incident : value) (k : string) : M bool :=
  '(_, props) ← deref incident;
  match props !! "hasOwnProperty" with
  | Some _ => lift (Throw TypeError)
  | None => mret (bool_decide (is_Some (props !! k)))
  end.

(** The [for] loop of lines 24-33 from the key at hand on; [return false]
    leaves the loop. *)
Fixpoint validate_from (incident : value) (keys : list string) : M bool :=
  match keys with
  | [] => mret true
  | k :: rest =>
      own ← hasOwnProperty incident k;
      if negb own then mret false else
      v1 ← get_prop incident k;
      if strict_eq v1 (VStr "") then mret false else
      v2 ← get_prop incident k;
      if strict_eq v2 VUndef then mret false else
      v3 ← get_prop incident k;
      if strict_eq v3 VNull then mret false else
      validate_from incident rest
  end.

(** Lines 12-35. *)
Definition validateIncidents (incident : value) : M bool :=
  validate_from incident incident_keys.

(** [row[i]] on an array held by value. *)
Definition at_index (row : list value) (i : nat) : value :=
  default VUndef (row !! i).

(** Lines 108-117.  The table [Constants.state_abbrev] is an argument: an
    array of arrays, never written. *)
Fixpoint getStateAbbrev (state_abbrev : list (list value)) (state : value)
  : value :=
  match state_abbrev with
  | [] => VBool false
  | row :: rest =>
      if strict_eq (at_index row 0) state then at_index row 1
      else getStateAbbrev rest state
  end.

End Middleware.

Module Handler.
Import Store Aggregator.

(** What the handler of [GET /showallincidents] sends: [res.json] of the
    array, which has to be read in the store the handler leaves, or the
    reply of the [catch] block. *)
Inductive reply :=
  | Json (status : nat) (records : list value) (h : list cell)
  | Failure (status : nat) (message : string).

(** Lines 67-107 once the four collections are fetched. *)
Definition respond (incidents sources tofTypes typeLinks : list value)
    (h : heap) : reply :=
  match showallincidents incidents sources tofTypes typeLinks h with
  | Return (responseArray, h') => Json 200 responseArray h'
  | Throw _ => Failure 500 "Request Error"
  end.

End Handler.

Module MoreSpec.
Import JsString Classifier Store Aggregator Middleware.

(** [sep] occurs somewhere in [s]. *)
Fixpoint occurs (sep s : string) : bool :=
  starts_with sep s
  || match s with
     | EmptyString => false
     | String _ s' => occurs sep s'
     end.

(** The cases of the [switch] with their labels. *)
Definition cases : list (list string * string) :=
  [(video_hosts, "video"); (post_hosts, "post");
   (court_document_hosts, "court_document"); (image_hosts, "image");
   (police_report_hosts, "police_report")].

(** A value [validateIncidents] accepts for a required key. *)
Definition filled (v : value) : bool :=
  negb (strict_eq v (VStr "") || strict_eq v VUndef || strict_eq v VNull).

(** Every required key is an own property with a filled value. *)
Definition complete (props : gmap string value) : bool :=
  forallb (λ k, match props !! k with
                | Some v => filled v
                | None => false
                end) incident_keys.

(** The incident of the model test that creates an incident (lines 97-100 of
    the test file): the first test incident with [src] and [tags] added, its
    description cut short and its coordinates rounded.  The two arrays are
    the cells 1 and 2. *)
Definition test_incident : gmap string value :=
  <["state" := VStr "Washington"]> (<["city" := VStr "Olympia"]>
  (<["desc" := VStr "Footage shows a few individuals break off"]>
  (<["title" := VStr "Police respond to broken windows with excessive force"]>
  (<["date" := VStr "2020-05-31"]> (<["id" := VStr "wa-olympia-1"]>
  (<["lat" := VNum 47]> (<["long" := VNum (-122)]>
  (<["src" := VRef 1]> (<["tags" := VRef 2]> ∅))))))))).

Definition test_store : heap :=
  [Object test_incident; Array [VStr "Twitter"];
   Array [VStr "hard, projectiles"]].

(** A table of two states. *)
Definition two_states : list (list value) :=
  [[VStr "Washington"; VStr "WA"]; [VStr "Oregon"; VStr "OR"]].

End MoreSpec.

Module SharedLabelInputs.
Import Store.

(** One incident, two types of force with the ids 1 and 5 and the same
    label, and one link to each of them. *)
Definition shared_store : list cell :=
  [Object (<["incident_id" := VNum 1]> ∅);
   Object (<["type_of_force_id" := VNum 1]>
           (<["type_of_force" := VStr "tear_gas"]> ∅));
   Object (<["type_of_force_id" := VNum 5]>
           (<["type_of_force" := VStr "tear_gas"]> ∅));
   Object (<["type_of_force_id" := VNum 1]> (<["incident_id" := VNum 1]> ∅));
   Object (<["type_of_force_id" := VNum 5]> (<["incident_id" := VNum 1]> ∅))].

Definition shared_incident : value := VRef 0.
Definition shared_def_1 : value := VRef 1.
Definition shared_def_5 : value := VRef 2.
Definition shared_link_1 : value := VRef 3.
Definition shared_link_5 : value := VRef 4.

End SharedLabelInputs.

(** * Running stateful computations *)

Module StFacts.

Lemma bind_run {S A B} (m : St S A) (f : A → St S B) s :
  (m ≫= f) s = match m s with Return (a, s') => f a s' | Throw e => Throw e end.
Proof. reflexivity. Qed.

Lemma bind_Return {S A B} (m : St S A) (f : A → St S B) s a s' :
  m s = Return (a, s') → (m ≫= f) s = f a s'.
Proof. intros H. by rewrite bind_run, H. Qed.

Lemma ret_run {S A} (a : A) (s : S) : (mret a : St S A) s = Return (a, s).
Proof. reflexivity. Qed.

Lemma lift_Return {S A} (a : A) (s : S) : lift (Return a) s = Return (a, s).
Proof. reflexivity. Qed.

Lemma foldM_cons {S A B} (f : B → A → St S B) acc x xs s :
  foldM f acc (x :: xs) s
  = match f acc x s with
    | Return (acc', s') => foldM f acc' xs s'
    | Throw e => Throw e
    end.
Proof. reflexivity. Qed.

Lemma forEach_nil {S A} (f : A → St S unit) s : forEach [] f s = Return (tt, s).
Proof. reflexivity. Qed.

Lemma forEach_cons {S A} (x : A) xs (f : A → St S unit) s :
  forEach (x :: xs) f s
  = match f x s with Return (_, s') => forEach xs f s' | Throw e => Throw e end.
Proof.
  unfold forEach. rewrite foldM_cons. by destruct (f x s) as [[[] s']|].
Qed.

End StFacts.

(** * Properties of the source classifier *)

Module ClassifierExamples.
Import JsString Classifier.

Example split_plain : split ".com" "a.com" = ["a"; ""].
Proof. reflexivity. Qed.

Example split_absent : split "https://www." "" = [""].
Proof. reflexivity. Qed.

Example split_twice : split "ab" "xabyabab" = ["x"; "y"; ""; ""].
Proof. reflexivity. Qed.

Example split_overlap : split "aa" "aaa" = [""; "a"].
Proof. reflexivity. Qed.

Example youtube :
  classify "https://www.youtube.com/watch?v=1"
  = Return {| src_url := "https://www.youtube.com/watch?v=1"; src_type := "video" |}.
Proof. reflexivity. Qed.

Example drive :
  classify "https://drive.google.com/file"
  = Return {| src_url := "https://drive.google.com/file"; src_type := "video" |}.
Proof. reflexivity. Qed.

Example example_com :
  classify "https://example.com/x"
  = Return {| src_url := "https://example.com/x"; src_type := "article" |}.
Proof. reflexivity. Qed.

End ClassifierExamples.

Module JsStringFacts.
Import JsString ClassifierSpec.

Lemma split_go_cons sep skip s : ∃ p ps, split_go sep skip s = p :: ps.
Proof.
  revert skip. induction s as [|c s IH]; intros skip; simpl; [by eauto|].
  destruct skip as [|k]; [|by apply IH].
  destruct (starts_with sep (String c s)); [by eauto|].
  destruct (IH 0%nat) as (p & ps & ->). simpl. eauto.
Qed.

(** With a separator that is not empty, [split] yields at least one piece. *)
Lemma split_head_defined sep s : sep ≠ "" → is_Some (split sep s !! 0%nat).
Proof.
  intros Hsep. unfold split. destruct sep as [|a sep]; [done|].
  destruct (split_go_cons (String a sep) 0 s) as (p & ps & ->).
  by eexists.
Qed.

Lemma split_go_head sep s :
  split_go sep 0 s !! 0%nat = Some (text_before sep s).
Proof.
  induction s as [|c s IH]; simpl.
  - by destruct (starts_with sep "").
  - destruct (starts_with sep (String c s)); [done|].
    destruct (split_go_cons sep 0 s) as (p & ps & Hs).
    rewrite Hs in IH |- *. cbn in IH |- *. by simplify_eq.
Qed.

(** The first piece is the text before the first separator. *)
Lemma split_head sep s :
  sep ≠ "" → split sep s !! 0%nat = Some (text_before sep s).
Proof. intros Hsep. destruct sep; [done|]. apply split_go_head. Qed.

Lemma text_before_empty sep : text_before sep "" = "".
Proof. simpl. by destruct (starts_with sep ""). Qed.

(** [text_before] stops exactly where the separator starts. *)
Lemma text_before_nil_inv sep s :
  text_before sep s = "" → s = "" ∨ starts_with sep s = true.
Proof.
  destruct s as [|c s]; [by left|]. simpl.
  destruct (starts_with sep (String c s)); [by right|done].
Qed.

Lemma strip_prefix_app p s : strip_prefix p (p +:+ s) = Some s.
Proof.
  induction p as [|a p IH]; [by destruct s|].
  change (String a p +:+ s) with (String a (p +:+ s)). simpl.
  by rewrite Ascii.eqb_refl.
Qed.

Lemma strip_prefix_Some p s r : strip_prefix p s = Some r → s = p +:+ r.
Proof.
  revert s. induction p as [|a p IH]; intros s; simpl.
  - destruct s; cbv [String.append]; congruence.
  - destruct s as [|b s]; [done|].
    destruct (Ascii.eqb_spec a b) as [->|]; [|done].
    intros H. rewrite (IH _ H). reflexivity.
Qed.

Lemma starts_with_true p s : starts_with p s = true → ∃ r, s = p +:+ r.
Proof.
  unfold starts_with. destruct (strip_prefix p s) as [r|] eqn:H; [|done].
  intros _. exists r. by apply strip_prefix_Some.
Qed.

Lemma starts_with_app p s : starts_with p (p +:+ s) = true.
Proof. unfold starts_with. by rewrite strip_prefix_app. Qed.

(** [text_before sep s] is the shortest prefix of [s] that [sep] follows,
    and all of [s] when [sep] occurs nowhere in it. *)
Lemma text_before_first sep s :
  ((∃ t, s = text_before sep s +:+ sep +:+ t)
   ∨ (text_before sep s = s ∧ ∀ a b, s ≠ a +:+ sep +:+ b))
  ∧ ∀ a b, s = a +:+ sep +:+ b →
      String.length (text_before sep s) ≤ String.length a.
Proof.
  induction s as [|c s [IH1 IH2]]; simpl.
  - destruct (starts_with sep "") eqn:Hsw.
    + apply starts_with_true in Hsw as [r Hr].
      split; [left; by exists r|]. simpl. intros; lia.
    + split; [|simpl; intros; lia]. right. split; [done|].
      intros a b Hab. destruct a; [|done]. destruct sep; [done|done].
  - destruct (starts_with sep (String c s)) eqn:Hsw.
    + apply starts_with_true in Hsw as [r Hr].
      split; [left; by exists r|]. simpl. intros; lia.
    + split.
      * destruct IH1 as [[t Ht]|[Htb Hno]].
        -- left. exists t. rewrite Ht at 1. reflexivity.
        -- right. split; [by rewrite Htb|]. intros a b Hab.
           destruct a as [|c' a].
           ++ change ("" +:+ sep +:+ b) with (sep +:+ b) in Hab.
              by rewrite Hab, starts_with_app in Hsw.
           ++ injection Hab as -> Hab. by apply Hno in Hab.
      * intros a b Hab. destruct a as [|c' a].
        -- change ("" +:+ sep +:+ b) with (sep +:+ b) in Hab.
           by rewrite Hab, starts_with_app in Hsw.
        -- injection Hab as -> Hab. simpl. apply IH2 in Hab. lia.
Qed.

End JsStringFacts.

Module ClassifierFacts.
Import JsString Classifier ClassifierSpec JsStringFacts StFacts.

(** No path through lines 43-62 reads a property of [undefined]. *)
Lemma host_token_total source : ∃ url, host_token source = Return url.
Proof.
  unfold host_token.
  destruct (split "https://www." source !! 1%nat) as [[|c comps]|]; simpl;
    try by eauto.
  all: destruct (split "https://" source !! 1%nat) as [components|];
    [|by eauto].
  all: destruct (split_head_defined ".com" components) as [c2 ->]; [done|]; simpl.
  all: destruct (11 <? String.length c2)%nat; [|by eauto].
  all: destruct (split_head_defined ".org" c2) as [c3 ->]; [done|]; simpl.
  all: destruct (10 <? String.length c3)%nat; by eauto.
Qed.

Lemma switch_url_closed url : switch_url url ∈ src_types.
Proof.
  unfold switch_url, src_types.
  repeat (match goal with |- context [case_of ?l url] => destruct (case_of l url) end);
    set_solver.
Qed.

Lemma case_of_false labels url :
  (∀ u, url = Some u → u ∉ labels) → case_of labels url = false.
Proof.
  intros H. destruct url as [u|]; simpl; [|done].
  apply bool_decide_eq_false. by apply H.
Qed.

(** The [default] arm of the [switch]. *)
Lemma switch_url_default url :
  (∀ u, url = Some u → u ∉ table_keys) → switch_url url = "article".
Proof.
  intros H. unfold switch_url.
  rewrite !case_of_false; [done|..]; intros u Hu Hin; apply (H u Hu);
    unfold table_keys; rewrite !elem_of_app; tauto.
Qed.

Lemma classify_Return source r :
  classify source = Return r →
  src_url r = source ∧ ∃ url, host_token source = Return url
                              ∧ src_type r = switch_url url.
Proof.
  unfold classify. destruct (host_token source) as [url|e]; [|done].
  intros [= <-]. eauto.
Qed.

Lemma callback_run source url arr :
  host_token source = Return url →
  callback source {| incident_src := Some arr |}
  = Return (tt, {| incident_src :=
                     Some (arr ++ [{| src_url := source;
                                      src_type := switch_url url |}]) |}).
Proof. intros Hurl. unfold callback, classify. by rewrite Hurl. Qed.

Lemma forEach_callback sources arr :
  ∃ rs, forEach sources callback {| incident_src := Some arr |}
        = Return (tt, {| incident_src := Some (arr ++ rs) |})
    ∧ Forall2 (λ source r, classify source = Return r) sources rs.
Proof.
  revert arr. induction sources as [|source sources IH]; intros arr.
  - exists []. by rewrite app_nil_r.
  - destruct (host_token_total source) as [url Hurl].
    destruct (IH (arr ++ [{| src_url := source; src_type := switch_url url |}]))
      as (rs & Hrs & Hall).
    exists ({| src_url := source; src_type := switch_url url |} :: rs).
    rewrite forEach_cons, (callback_run _ _ _ Hurl), Hrs, <-app_assoc.
    split; [done|]. constructor; [|done]. unfold classify. by rewrite Hurl.
Qed.

(** [processSources] classifies every citation in order, and leaves the
    array it returns in the global [incident_src]. *)
Lemma processSources_spec sources g :
  ∃ rs, processSources sources g = Return (rs, {| incident_src := Some rs |})
    ∧ Forall2 (λ source r, classify source = Return r) sources rs.
Proof.
  destruct (forEach_callback sources []) as (rs & Hrs & Hall).
  exists rs. split; [|done]. unfold processSources.
  rewrite bind_run. unfold assign_incident_src at 1.
  by rewrite bind_run, Hrs.
Qed.

(** The result of [processSources] does not depend on the global scope it
    starts from. *)
Lemma processSources_deterministic sources g1 g2 :
  processSources sources g1 = processSources sources g2.
Proof. reflexivity. Qed.

Lemma text_before_www rest :
  split "https://www." ("https://www." +:+ rest) !! 1%nat
  = Some (text_before "https://www." rest).
Proof.
  cbv [String.append]. unfold split.
  change (split_go "https://www." 0 rest !! 0%nat = Some (text_before "https://www." rest)).
  apply split_go_head.
Qed.

End ClassifierFacts.

Module ClassifierClaims.
Import JsString Classifier ClassifierSpec JsStringFacts ClassifierFacts.

(** C4: the classifier is total on strings.  For every citation the callback
    returns a record (it never throws), the record holds the citation
    itself as [src_url], its [src_type] is one of the six labels, and it is
    [article] whenever the token is no key of the lookup table; the empty
    string is classified as [article]; [processSources] returns such a
    record for the citation. *)
Theorem classify_total (source : string) :
  ∃ url t,
    host_token source = Return url
    ∧ classify source = Return {| src_url := source; src_type := t |}
    ∧ t ∈ src_types
    ∧ ((∀ u, url = Some u → u ∉ table_keys) → t = "article")
    ∧ classify "" = Return {| src_url := ""; src_type := "article" |}
    ∧ ∀ g, ∃ g', processSources [source] g
                 = Return ([{| src_url := source; src_type := t |}], g').
Proof.
  destruct (host_token_total source) as [url Hurl].
  exists url, (switch_url url). split; [done|].
  assert (classify source
          = Return {| src_url := source; src_type := switch_url url |}) as Hc.
  { unfold classify. by rewrite Hurl. }
  split; [done|]. split; [apply switch_url_closed|].
  split; [apply switch_url_default|]. split; [reflexivity|].
  intros g. destruct (processSources_spec [source] g) as (rs & Hrs & Hall).
  apply Forall2_cons_inv_l in Hall as (r & rs' & Hr & Hnil & ->).
  apply Forall2_nil_inv_l in Hnil as ->.
  rewrite Hc in Hr. injection Hr as <-. eauto.
Qed.

(** C5: the citation [https://nlg-la.org/case123] is a court document.
    There is no [https://www.] in it, so the [https://] branch is taken;
    the text up to [.com] has 18 characters, more than 11; cutting at
    [.org] leaves [nlg-la], which is not longer than 10 characters and is a
    key of the court-document case. *)
Theorem nlg_la_court_document :
  let source := "https://nlg-la.org/case123" in
  split "https://www." source !! 1%nat = None
  ∧ split "https://" source !! 1%nat = Some "nlg-la.org/case123"
  ∧ split ".com" "nlg-la.org/case123" !! 0%nat = Some "nlg-la.org/case123"
  ∧ (11 <? String.length "nlg-la.org/case123")%nat = true
  ∧ split ".org" "nlg-la.org/case123" !! 0%nat = Some "nlg-la"
  ∧ (10 <? String.length "nlg-la")%nat = false
  ∧ host_token source = Return (Some "nlg-la")
  ∧ "nlg-la" ∈ court_document_hosts
  ∧ classify source
    = Return {| src_url := source; src_type := "court_document" |}
  ∧ processSources [source] unbound
    = Return ([{| src_url := source; src_type := "court_document" |}],
              {| incident_src :=
                   Some [{| src_url := source; src_type := "court_document" |}] |}).
Proof.
  cbv zeta. repeat split; try reflexivity.
  unfold court_document_hosts. apply list_elem_of_here.
Qed.

(** C8, evaluated on one citation: [processSources] assigns the global
    binding [incident_src], which did not exist before the call, and leaves
    the returned array in it. *)
Theorem processSources_assigns_global :
  ∃ rs g',
    processSources ["https://twitter.com/x"] unbound = Return (rs, g')
    ∧ rs = [{| src_url := "https://twitter.com/x"; src_type := "post" |}]
    ∧ incident_src unbound = None
    ∧ incident_src g' = Some rs
    ∧ g' ≠ unbound.
Proof.
  eexists _, _. split; [reflexivity|]. repeat split; done.
Qed.

(** C9 as stated fails at the citation [https://www.]: the text after the
    prefix is empty, the test [if (comps)] fails and the [https://] branch
    yields the token [www.].  It also fails when a second [https://www.]
    comes before the first [.com]: the token ends there, and here it is a
    key of the video case although the text up to [.com] is not. *)
Lemma www_alone_token :
  strip_prefix "https://www." "https://www." = Some ""
  ∧ text_before ".com" "" = ""
  ∧ host_token "https://www." = Return (Some "www.")
  ∧ host_token "https://www." ≠ Return (Some (text_before ".com" ""))
  ∧ strip_prefix "https://www." "https://www.youtubehttps://www.x.com"
    = Some "youtubehttps://www.x.com"
  ∧ text_before ".com" "youtubehttps://www.x.com" = "youtubehttps://www.x"
  ∧ host_token "https://www.youtubehttps://www.x.com" = Return (Some "youtube").
Proof. repeat split; try reflexivity. discriminate. Qed.

(** C9, amended: for a citation [https://www.] followed by [rest], the
    token is the text of [rest] up to the next [https://www.], cut at its
    first [.com], without any length test, unless that text is empty: then
    the [https://] branch yields [www.].  So [https://www.nlg-la.org/case123]
    is an article, while the same citation without [www.] is a court
    document. *)
Theorem www_branch_token (rest : string) :
  host_token ("https://www." +:+ rest) = Return (Some (www_token rest))
  ∧ host_token "https://www.nlg-la.org/case123"
    = Return (Some "nlg-la.org/case123")
  ∧ classify "https://www.nlg-la.org/case123"
    = Return {| src_url := "https://www.nlg-la.org/case123";
                src_type := "article" |}
  ∧ classify "https://nlg-la.org/case123"
    = Return {| src_url := "https://nlg-la.org/case123";
                src_type := "court_document" |}.
Proof.
  split; [|repeat split; reflexivity].
  unfold host_token, www_token. rewrite text_before_www.
  destruct (text_before "https://www." rest) as [|c segment] eqn:Hseg; simpl.
  - apply text_before_nil_inv in Hseg as [->|Hpre].
    + reflexivity.
    + apply starts_with_true in Hpre as [r ->].
      cbv [String.append]. reflexivity.
  - by rewrite split_head.
Qed.

End ClassifierClaims.

(** * Properties of the incident aggregator *)

Module AggregatorExamples.
Import Store Aggregator AggregatorSpec AggregatorInputs.

(** The round trip of the specification: one incident, one definition, one
    link, one source. *)
Example round_trip :
  ∃ h', aggregate [the_incident] [def_tear_gas] [link_tear_gas] [the_source] h0
        = Return ([the_incident], h')
    ∧ categories_in h' the_incident = Some [VStr "tear_gas"]
    ∧ src_in h' the_incident = Some [the_source]
    ∧ h' !! 6%nat = Some source1.
Proof. eexists. split; [vm_compute; reflexivity|]. vm_compute. done. Qed.

Example round_trip_final_heap :
  aggregate [the_incident] [def_tear_gas] [link_tear_gas] [the_source] h0
  = Return ([the_incident],
            final_heap h0 [the_incident] [def_tear_gas] [link_tear_gas] [the_source]).
Proof. vm_compute. reflexivity. Qed.

End AggregatorExamples.

Module StoreFacts.
Import Store.
Export StFacts.

Lemma deref_row l props h :
  h !! l = Some (Object props) → deref (VRef l) h = Return ((l, props), h).
Proof. intros H. unfold deref. by rewrite H. Qed.

Lemma get_prop_row l props k h :
  h !! l = Some (Object props) →
  get_prop (VRef l) k h = Return (field props k, h).
Proof.
  intros H. unfold get_prop. by rewrite (bind_Return _ _ _ _ _ (deref_row _ _ _ H)).
Qed.

Lemma spread_row l props h :
  h !! l = Some (Object props) → spread (VRef l) h = Return (props, h).
Proof.
  intros H. unfold spread. by rewrite (bind_Return _ _ _ _ _ (deref_row _ _ _ H)).
Qed.

Lemma set_prop_row l props k x h :
  h !! l = Some (Object props) →
  set_prop (VRef l) k x h = Return (tt, <[l := Object (<[k := x]> props)]> h).
Proof.
  intros H. unfold set_prop. by rewrite (bind_Return _ _ _ _ _ (deref_row _ _ _ H)).
Qed.

Lemma push_array l items x h :
  h !! l = Some (Array items) →
  push (VRef l) x h = Return (tt, <[l := Array (items ++ [x])]> h).
Proof. intros H. unfold push. by rewrite H. Qed.

Lemma field_insert_ne props k k' x :
  k ≠ k' → field (<[k := x]> props) k' = field props k'.
Proof. intros H. unfold field. by rewrite lookup_insert_ne. Qed.

Lemma field_insert props k x : field (<[k := x]> props) k = x.
Proof. unfold field. by rewrite lookup_insert_eq. Qed.

End StoreFacts.

Module AggregatorFacts.
Import Store Aggregator AggregatorSpec StoreFacts.

Lemma is_row_props h v :
  is_row h v → ∃ l, v = VRef l ∧ h !! l = Some (Object (props_of h v)).
Proof. intros (l & props & -> & H). exists l. simpl. by rewrite H. Qed.

Lemma get_prop_is_row h v k :
  is_row h v → get_prop v k h = Return (prop_of h v k, h).
Proof.
  intros (l & Hv & H)%is_row_props. rewrite Hv at 1. by apply get_prop_row.
Qed.

Lemma spread_is_row h v : is_row h v → spread v h = Return (props_of h v, h).
Proof.
  intros (l & Hv & H)%is_row_props. rewrite Hv at 1. by apply spread_row.
Qed.

(** *** Lines 76-82 only read the store *)

Lemma tags_for_run h tof typeLinks acc :
  is_row h tof → rows h typeLinks →
  foldM (λ tagsArray connection,
      a ← get_prop connection "type_of_force_id";
      b ← get_prop tof "type_of_force_id";
      if strict_eq a b then
        props ← spread tof;
        i ← get_prop connection "incident_id";
        mret (tagsArray ++ [<["incident_id" := i]> props])
      else mret tagsArray) acc typeLinks h
  = Return (acc ++ tags_for h tof typeLinks, h).
Proof.
  intros Htof Hlinks. revert acc.
  induction Hlinks as [|connection typeLinks Hc _ IH]; intros acc.
  - simpl. by rewrite app_nil_r.
  - rewrite foldM_cons.
    rewrite (bind_Return _ _ _ _ _ (get_prop_is_row _ _ _ Hc)).
    rewrite (bind_Return _ _ _ _ _ (get_prop_is_row _ _ _ Htof)).
    unfold tags_for. simpl flat_map. fold (tags_for h tof typeLinks).
    destruct (strict_eq _ _).
    + rewrite (bind_Return _ _ _ _ _ (spread_is_row _ _ Htof)).
      rewrite (bind_Return _ _ _ _ _ (get_prop_is_row _ _ _ Hc)).
      rewrite ret_run, IH. by rewrite <-app_assoc.
    + by rewrite ret_run, IH.
Qed.

Lemma build_tags_run h tofTypes typeLinks :
  rows h tofTypes → rows h typeLinks →
  build_tags tofTypes typeLinks h = Return (tags_of h tofTypes typeLinks, h).
Proof.
  intros Htofs Hlinks. unfold build_tags.
  enough (∀ acc, foldM (λ tagsArray tof,
    foldM (λ tagsArray connection,
      a ← get_prop connection "type_of_force_id";
      b ← get_prop tof "type_of_force_id";
      if strict_eq a b then
        props ← spread tof;
        i ← get_prop connection "incident_id";
        mret (tagsArray ++ [<["incident_id" := i]> props])
      else mret tagsArray) tagsArray typeLinks) acc tofTypes h
    = Return (acc ++ tags_of h tofTypes typeLinks, h)) as H by apply (H []).
  induction Htofs as [|tof tofTypes Htof _ IH]; intros acc.
  - simpl. by rewrite app_nil_r.
  - rewrite foldM_cons, (tags_for_run _ _ _ _ Htof Hlinks), IH.
    unfold tags_of. simpl. by rewrite <-app_assoc.
Qed.

(** *** One array is filled by a loop of pushes *)

Lemma forEach_push {A} (xs : list A) (f : A → M unit) (sel : A → list value)
    (la : loc) (h : heap) (acc : list value) :
  (∀ x acc, x ∈ xs →
     f x (<[la := Array acc]> h) = Return (tt, <[la := Array (acc ++ sel x)]> h)) →
  forEach xs f (<[la := Array acc]> h)
  = Return (tt, <[la := Array (acc ++ flat_map sel xs)]> h).
Proof.
  revert acc. induction xs as [|x xs IH]; intros acc Hf.
  - simpl. by rewrite app_nil_r.
  - rewrite forEach_cons, Hf by apply list_elem_of_here.
    rewrite IH; [by rewrite <-app_assoc|].
    intros y acc' Hy. apply Hf. by apply list_elem_of_further.
Qed.

Lemma filling_lookup_incident k l props h acc :
  l < length h →
  filling k l props h acc !! l = Some (Object (<[k := VRef (length h)]> props)).
Proof.
  intros Hl. unfold filling.
  rewrite list_lookup_insert_ne by lia.
  apply list_lookup_insert_eq. rewrite length_app. simpl. lia.
Qed.

Lemma filling_lookup_array k l props h acc :
  l < length h → filling k l props h acc !! length h = Some (Array acc).
Proof.
  intros Hl. unfold filling.
  apply list_lookup_insert_eq. rewrite length_insert, length_app. simpl. lia.
Qed.

Lemma filling_lookup_other k l props h acc l' :
  l' < length h → l' ≠ l → filling k l props h acc !! l' = h !! l'.
Proof.
  intros Hl' Hne. unfold filling.
  rewrite !list_lookup_insert_ne by lia. by apply lookup_app_l.
Qed.

Lemma filling_push k l props h acc x :
  <[length h := Array (acc ++ x)]> (filling k l props h acc)
  = filling k l props h (acc ++ x).
Proof. unfold filling. apply list_insert_insert_eq. Qed.

Lemma filling_insert k l props h acc acc' :
  <[length h := Array acc']> (filling k l props h acc) = filling k l props h acc'.
Proof. unfold filling. apply list_insert_insert_eq. Qed.

Lemma filling_done k l props h items :
  l < length h → filling k l props h items = attach k items l props h.
Proof.
  intros Hl. unfold filling, attach.
  rewrite list_insert_insert_ne by lia. f_equal.
  rewrite insert_app_r_alt by lia. by rewrite Nat.sub_diag.
Qed.

Lemma filling_start k l props h :
  h !! l = Some (Object props) →
  (arr ← new_array; set_prop (VRef l) k arr) h
  = Return (tt, filling k l props h []).
Proof.
  intros Hl. pose proof (lookup_lt_Some _ _ _ Hl) as Hlt.
  rewrite bind_run. unfold new_array.
  rewrite (set_prop_row l props) by by rewrite lookup_app_l.
  unfold filling. f_equal. f_equal. symmetry. apply list_insert_id.
  rewrite list_lookup_insert_ne by lia. by apply list_lookup_middle.
Qed.

(** *** Rows stay rows *)

Lemma attach_length k items l props h :
  length (attach k items l props h) = S (length h).
Proof. unfold attach. rewrite length_insert, length_app. simpl. lia. Qed.

Lemma attach_lookup_incident k items l props h :
  l < length h →
  attach k items l props h !! l = Some (Object (<[k := VRef (length h)]> props)).
Proof. intros Hl. rewrite <-filling_done by done. by apply filling_lookup_incident. Qed.

Lemma attach_lookup_array k items l props h :
  l < length h → attach k items l props h !! length h = Some (Array items).
Proof. intros Hl. rewrite <-filling_done by done. by apply filling_lookup_array. Qed.

Lemma attach_lookup_other k items l props h l' :
  l < length h → l' < length h → l' ≠ l →
  attach k items l props h !! l' = h !! l'.
Proof. intros Hl Hl' Hne. rewrite <-filling_done by done. by apply filling_lookup_other. Qed.

Lemma attach_is_row k items l props h v :
  h !! l = Some (Object props) → is_row h v → is_row (attach k items l props h) v.
Proof.
  intros Hl (l' & props' & -> & Hl').
  pose proof (lookup_lt_Some _ _ _ Hl). pose proof (lookup_lt_Some _ _ _ Hl').
  destruct (decide (l' = l)) as [->|Hne].
  - eexists _, _. split; [done|]. by apply attach_lookup_incident.
  - exists l', props'. split; [done|]. by rewrite attach_lookup_other.
Qed.

Lemma attach_step_rows k content h incident vs :
  rows h vs → rows (attach_step k content h incident) vs.
Proof.
  intros Hvs. unfold attach_step. destruct incident as [| | | | |l]; try done.
  destruct (h !! l) as [[props|]|] eqn:Hl; try done.
  eapply Forall_impl; [done|]. intros v. by apply attach_is_row.
Qed.

(** Reading a property other than the one attached sees the old value. *)
Lemma attach_prop_of k items l props h v k' :
  h !! l = Some (Object props) → is_row h v → k ≠ k' →
  prop_of (attach k items l props h) v k' = prop_of h v k'.
Proof.
  intros Hl (l' & props' & -> & Hl') Hk.
  pose proof (lookup_lt_Some _ _ _ Hl). pose proof (lookup_lt_Some _ _ _ Hl').
  unfold prop_of, props_of. destruct (decide (l' = l)) as [->|Hne].
  - rewrite attach_lookup_incident, Hl by done. by apply field_insert_ne.
  - by rewrite attach_lookup_other.
Qed.

(** *** Lines 84-91 *)

Lemma categories_step tagsArray l props h :
  h !! l = Some (Object props) →
  (arr ← new_array;
   set_prop (VRef l) "categories" arr;;
   forEach tagsArray (λ tag,
     b ← get_prop (VRef l) "incident_id";
     if strict_eq (field tag "incident_id") b then
       c ← get_prop (VRef l) "categories";
       push c (field tag "type_of_force")
     else mret tt)) h
  = Return (tt, attach "categories"
                  (categories_for tagsArray (field props "incident_id")) l props h).
Proof.
  intros Hl. pose proof (lookup_lt_Some _ _ _ Hl) as Hlt.
  pose proof (filling_start "categories" l props h Hl) as Hstart.
  rewrite bind_run in Hstart. rewrite bind_run.
  destruct (new_array h) as [[arr h1]|]; [|done].
  rewrite bind_run, Hstart. unfold filling at 1. fold (filling "categories" l props h []).
  rewrite <-filling_done by done.
  change (categories_for tagsArray (field props "incident_id"))
    with ([] ++ categories_for tagsArray (field props "incident_id")).
  rewrite <-(filling_insert _ _ _ _ [] ([] ++ _)).
  rewrite <-(filling_insert "categories" l props h [] []) at 1.
  apply forEach_push. intros tag acc _.
  rewrite filling_insert.
  rewrite (bind_Return _ _ _ _ _
    (get_prop_row _ _ "incident_id" _ (filling_lookup_incident _ _ _ _ acc Hlt))).
  rewrite field_insert_ne by done.
  destruct (strict_eq _ _).
  - rewrite (bind_Return _ _ _ _ _
      (get_prop_row _ _ "categories" _ (filling_lookup_incident _ _ _ _ acc Hlt))).
    rewrite field_insert.
    rewrite (push_array _ _ _ _ (filling_lookup_array _ _ _ _ acc Hlt)).
    by rewrite filling_push, filling_insert.
  - by rewrite app_nil_r, filling_insert.
Qed.

Lemma attach_categories_run tagsArray incidents h :
  rows h incidents →
  attach_categories tagsArray incidents h
  = Return (tt, attach_all "categories" (categories_content tagsArray) h incidents).
Proof.
  unfold attach_categories. revert h.
  induction incidents as [|incident incidents IH]; intros h Hrows; [done|].
  apply Forall_cons in Hrows as [(l & props & -> & Hl) Hrows].
  rewrite forEach_cons, (categories_step _ _ _ _ Hl).
  unfold attach_all. simpl. rewrite Hl. fold (attach_all "categories").
  apply IH. eapply Forall_impl; [done|]. intros v. by apply attach_is_row.
Qed.

(** *** Lines 94-103 *)

(** While the [src] array of the incident at [l] is filled, every row still
    reads its old [incident_id]. *)
Lemma filling_get_incident_id k l props h acc v :
  k ≠ "incident_id" → h !! l = Some (Object props) → is_row h v →
  get_prop v "incident_id" (filling k l props h acc)
  = Return (prop_of h v "incident_id", filling k l props h acc).
Proof.
  intros Hk Hl (l' & props' & -> & Hl').
  pose proof (lookup_lt_Some _ _ _ Hl). pose proof (lookup_lt_Some _ _ _ Hl').
  unfold prop_of, props_of. rewrite Hl'.
  destruct (decide (l' = l)) as [->|Hne].
  - rewrite (get_prop_row _ _ _ _ (filling_lookup_incident _ _ _ _ acc H)).
    rewrite field_insert_ne by done. congruence.
  - apply get_prop_row. by rewrite filling_lookup_other.
Qed.

Lemma sources_step sources l props h :
  h !! l = Some (Object props) → rows h sources →
  (arr ← new_array;
   set_prop (VRef l) "src" arr;;
   forEach sources (λ source,
     a ← get_prop source "incident_id";
     b ← get_prop (VRef l) "incident_id";
     if strict_eq a b then
       c ← get_prop (VRef l) "src";
       push c source
     else mret tt)) h
  = Return (tt, attach "src" (sources_for h sources (field props "incident_id"))
                  l props h).
Proof.
  intros Hl Hsources. pose proof (lookup_lt_Some _ _ _ Hl) as Hlt.
  pose proof (filling_start "src" l props h Hl) as Hstart.
  rewrite bind_run in Hstart. rewrite bind_run.
  destruct (new_array h) as [[arr h1]|]; [|done].
  rewrite bind_run, Hstart. unfold filling at 1. fold (filling "src" l props h []).
  rewrite <-filling_done by done.
  change (sources_for h sources (field props "incident_id"))
    with ([] ++ sources_for h sources (field props "incident_id")).
  rewrite <-(filling_insert _ _ _ _ [] ([] ++ _)).
  rewrite <-(filling_insert "src" l props h [] []) at 1.
  apply forEach_push. intros source acc Hin.
  rewrite filling_insert.
  assert (is_row h source) as Hrow by by eapply Forall_forall.
  rewrite (bind_Return _ _ _ _ _
    (filling_get_incident_id "src" l props h acc source ltac:(done) Hl Hrow)).
  rewrite (bind_Return _ _ _ _ _
    (get_prop_row _ _ "incident_id" _ (filling_lookup_incident _ _ _ _ acc Hlt))).
  rewrite field_insert_ne by done.
  destruct (strict_eq _ _).
  - rewrite (bind_Return _ _ _ _ _
      (get_prop_row _ _ "src" _ (filling_lookup_incident _ _ _ _ acc Hlt))).
    rewrite field_insert.
    rewrite (push_array _ _ _ _ (filling_lookup_array _ _ _ _ acc Hlt)).
    by rewrite filling_push, filling_insert.
  - by rewrite app_nil_r, filling_insert.
Qed.

Lemma attach_sources_run sources incidents h :
  rows h incidents → rows h sources →
  attach_sources sources incidents h
  = Return (incidents, attach_all "src" (src_content sources) h incidents).
Proof.
  unfold attach_sources.
  enough (∀ acc h, rows h incidents → rows h sources →
    foldM (λ responseArray incident,
      arr ← new_array;
      set_prop incident "src" arr;;
      forEach sources (λ source,
        a ← get_prop source "incident_id";
        b ← get_prop incident "incident_id";
        if strict_eq a b then
          c ← get_prop incident "src";
          push c source
        else mret tt);;
      mret (responseArray ++ [incident])) acc incidents h
    = Return (acc ++ incidents, attach_all "src" (src_content sources) h incidents))
    as H by apply (H []).
  induction incidents as [|incident incidents IH]; intros acc h' Hrows Hsources.
  - simpl. by rewrite app_nil_r.
  - apply Forall_cons in Hrows as [(l & props & -> & Hl) Hrows].
    rewrite foldM_cons.
    pose proof (sources_step sources l props h' Hl Hsources) as Hstep.
    rewrite bind_run in Hstep. rewrite bind_run.
    destruct (new_array h') as [[arr h1]|]; [|done].
    rewrite bind_run in Hstep. rewrite bind_run.
    destruct (set_prop (VRef l) "src" arr h1) as [[[] h2]|]; [|done].
    rewrite bind_run, Hstep, ret_run.
    unfold attach_all. simpl. rewrite Hl. fold (attach_all "src").
    rewrite IH.
    + by rewrite <-app_assoc.
    + eapply Forall_impl; [done|]. intros v. by apply attach_is_row.
    + eapply Forall_impl; [done|]. intros v. by apply attach_is_row.
Qed.

Lemma attach_all_rows k content h incidents vs :
  rows h vs → rows (attach_all k content h incidents) vs.
Proof.
  revert h. induction incidents as [|incident incidents IH]; intros h Hvs; [done|].
  simpl. apply IH. by apply attach_step_rows.
Qed.

(** The handler as a function of the store: it returns the incidents it was
    given and leaves [final_heap] behind. *)
Lemma aggregate_run incidents tagDefs tagLinks sources h :
  rows h incidents → rows h tagDefs → rows h tagLinks → rows h sources →
  aggregate incidents tagDefs tagLinks sources h
  = Return (incidents, final_heap h incidents tagDefs tagLinks sources).
Proof.
  intros Hi Ht Hl Hs. unfold aggregate, showallincidents.
  rewrite (bind_Return _ _ _ _ _ (build_tags_run _ _ _ Ht Hl)).
  rewrite (bind_Return _ _ _ _ _ (attach_categories_run _ _ _ Hi)).
  apply attach_sources_run; by apply attach_all_rows.
Qed.

End AggregatorFacts.

Module AttachFacts.
Import Store Aggregator AggregatorSpec StoreFacts AggregatorFacts.

Lemma sources_for_stable h0 h sources id :
  id_stable h0 h → rows h0 sources →
  sources_for h sources id = sources_for h0 sources id.
Proof.
  intros Hst Hrows. unfold sources_for.
  induction Hrows as [|source sources Hrow _ IH]; [done|].
  simpl. rewrite IH. by destruct (Hst _ Hrow) as [_ ->].
Qed.

Section one_pass.
Variable k : string.
Variable content : heap → gmap string value → list value.
Variable C : gmap string value → list value.
Variable h0 : heap.
Hypothesis k_not_id : k ≠ "incident_id".
Hypothesis content_C : ∀ h props props0,
  id_stable h0 h →
  field props "incident_id" = field props0 "incident_id" →
  content h props = C props0.

Lemma attached_cell done h l props0 :
  attached k C h0 done h → h0 !! l = Some (Object props0) →
  ∃ props, h !! l = Some (Object props)
           ∧ <[k := VRef (length h)]> props = <[k := VRef (length h)]> props0
           ∧ field props "incident_id" = field props0 "incident_id".
Proof.
  intros Hat Hl. destruct (decide (VRef l ∈ done)) as [Hin|Hnin].
  - destruct (attached_incident _ _ _ _ _ Hat l props0 Hin Hl) as (la & _ & _ & Hl' & _).
    eexists. split; [done|]. split; [apply insert_insert_eq|].
    by apply field_insert_ne.
  - exists props0. split; [|done].
    rewrite (attached_frame _ _ _ _ _ Hat) by eauto using lookup_lt_Some. done.
Qed.

Lemma attached_id_stable done h : attached k C h0 done h → id_stable h0 h.
Proof.
  intros Hat v (l & props0 & -> & Hl).
  destruct (attached_cell _ _ _ _ Hat Hl) as (props & Hl' & _ & Hid).
  split; [by eexists _, _|]. unfold prop_of, props_of. by rewrite Hl, Hl'.
Qed.

Lemma attached_nil : attached k C h0 [] h0.
Proof.
  split; [done|done|]. intros l props0 Hin. by apply elem_of_nil in Hin.
Qed.

Lemma attached_step done h incident :
  attached k C h0 done h → is_row h0 incident →
  attached k C h0 (done ++ [incident]) (attach_step k content h incident).
Proof.
  intros Hat (l & props0 & -> & Hl).
  pose proof (lookup_lt_Some _ _ _ Hl) as Hlt0.
  pose proof (attached_length _ _ _ _ _ Hat) as Hlen.
  destruct (attached_cell _ _ _ _ Hat Hl) as (props & Hl' & Hins & Hid).
  unfold attach_step. rewrite Hl'.
  rewrite (content_C h props props0 (attached_id_stable _ _ Hat) Hid).
  split.
  - rewrite attach_length. lia.
  - intros l' Hl'0 Hnin. apply not_elem_of_app in Hnin as [Hnin Hne].
    rewrite attach_lookup_other; [by apply (attached_frame _ _ _ _ _ Hat)|lia|lia|].
    intros ->. apply Hne, list_elem_of_here.
  - intros l' props0' Hin Hl'0.
    destruct (decide (l' = l)) as [->|Hne].
    + assert (props0' = props0) as -> by congruence.
      exists (length h). rewrite attach_length.
      rewrite attach_lookup_incident, attach_lookup_array by lia.
      rewrite Hins. split_and!; try done; lia.
    + apply elem_of_app in Hin as [Hin|Hin];
        [|apply list_elem_of_singleton in Hin; congruence].
      destruct (attached_incident _ _ _ _ _ Hat l' props0' Hin Hl'0)
        as (la & Hla0 & Hla & Hcell & Harr).
      pose proof (lookup_lt_Some _ _ _ Hl'0).
      exists la. rewrite attach_length.
      rewrite !attach_lookup_other by (try done; lia).
      split_and!; try done; lia.
Qed.

Lemma attach_all_attached incidents :
  rows h0 incidents → attached k C h0 incidents (attach_all k content h0 incidents).
Proof.
  induction incidents as [|incident incidents IH] using rev_ind; intros Hrows.
  - apply attached_nil.
  - apply Forall_app in Hrows as [Hrows Hrow].
    apply Forall_cons in Hrow as [Hrow _].
    unfold attach_all. rewrite foldl_app. simpl.
    apply attached_step; [apply IH, Hrows|exact Hrow].
Qed.

End one_pass.

End AttachFacts.

Module AggregateFacts.
Import Store Aggregator AggregatorSpec StoreFacts AggregatorFacts AttachFacts.

Lemma categories_for_app tags1 tags2 id :
  categories_for (tags1 ++ tags2) id
  = categories_for tags1 id ++ categories_for tags2 id.
Proof. unfold categories_for. apply flat_map_app. Qed.

Lemma categories_for_tags_for h tof tagLinks incident :
  categories_for (tags_for h tof tagLinks) (prop_of h incident "incident_id")
  = flat_map (λ connection,
      if resolves h connection tof && belongs h connection incident
      then [prop_of h tof "type_of_force"] else []) tagLinks.
Proof.
  induction tagLinks as [|connection tagLinks IH]; [done|].
  unfold tags_for. simpl. fold (tags_for h tof tagLinks).
  rewrite categories_for_app, IH. f_equal.
  unfold resolves, belongs. destruct (strict_eq _ _); [|done].
  unfold categories_for. simpl. rewrite field_insert, app_nil_r.
  rewrite field_insert_ne by done. by destruct (strict_eq _ _).
Qed.

(** The labels pushed for an incident, read off the collections. *)
Lemma categories_for_tags_of h tagDefs tagLinks incident :
  categories_for (tags_of h tagDefs tagLinks) (prop_of h incident "incident_id")
  = categories_of h tagDefs tagLinks incident.
Proof.
  induction tagDefs as [|tof tagDefs IH]; [done|].
  unfold tags_of, categories_of. simpl.
  fold (tags_of h tagDefs tagLinks). fold (categories_of h tagDefs tagLinks incident).
  by rewrite categories_for_app, IH, categories_for_tags_for.
Qed.

Lemma sources_for_src_of h sources incident :
  sources_for h sources (prop_of h incident "incident_id")
  = src_of h sources incident.
Proof.
  unfold sources_for, src_of, belongs.
  induction sources as [|source sources IH]; [done|].
  simpl. rewrite IH, filter_cons.
  by destruct (strict_eq _ _).
Qed.

Lemma rows_elem h vs v : rows h vs → v ∈ vs → is_row h v.
Proof. intros Hrows Hin. by apply (proj1 (Forall_forall _ _) Hrows). Qed.

Lemma rows_lt h vs l : rows h vs → VRef l ∈ vs → l < length h.
Proof.
  intros Hrows Hin. apply (proj1 (Forall_forall _ _) Hrows) in Hin
    as (l' & props & [= ->] & Hl). by eapply lookup_lt_Some.
Qed.

Lemma final_heap_aggregated h incidents tagDefs tagLinks sources :
  rows h incidents → rows h sources →
  aggregated h incidents tagDefs tagLinks sources
    (final_heap h incidents tagDefs tagLinks sources).
Proof.
  intros Hi Hs. unfold final_heap.
  set (tags := tags_of h tagDefs tagLinks).
  set (h2 := attach_all "categories" (categories_content tags) h incidents).
  assert (attached "categories"
            (λ props0, categories_for tags (field props0 "incident_id"))
            h incidents h2) as H2.
  { apply attach_all_attached; [done| |done].
    intros ? props props0 _ Hid. unfold categories_content. by rewrite Hid. }
  assert (id_stable h h2) as Hst2.
  { eapply attached_id_stable; [|exact H2]; done. }
  assert (rows h2 incidents) as Hi2 by by apply attach_all_rows.
  assert (rows h2 sources) as Hs2 by by apply attach_all_rows.
  set (h3 := attach_all "src" (src_content sources) h2 incidents).
  assert (attached "src"
            (λ props0, sources_for h sources (field props0 "incident_id"))
            h2 incidents h3) as H3.
  { apply attach_all_attached; [done| |done].
    intros h' props props0 Hst Hid. unfold src_content. rewrite Hid.
    rewrite (sources_for_stable h2 h') by done.
    by apply sources_for_stable. }
  pose proof (attached_length _ _ _ _ _ H2) as Hlen2.
  pose proof (attached_length _ _ _ _ _ H3) as Hlen3.
  split.
  - lia.
  - intros l Hl Hnin.
    rewrite (attached_frame _ _ _ _ _ H3) by (done || lia).
    by apply (attached_frame _ _ _ _ _ H2).
  - intros l props Hin Hl.
    destruct (attached_incident _ _ _ _ _ H2 l props Hin Hl)
      as (lc & Hlc0 & Hlc & Hcell2 & Hcats).
    destruct (attached_incident _ _ _ _ _ H3 l _ Hin Hcell2)
      as (ls & Hls0 & Hls & Hcell3 & Hsrc).
    exists lc, ls. split_and!; try done; try lia.
    + rewrite (attached_frame _ _ _ _ _ H3) by
        (try done; intros Hin'; apply (rows_lt _ _ _ Hi) in Hin'; lia).
      rewrite Hcats. do 2 f_equal.
      rewrite <-categories_for_tags_of. unfold prop_of, props_of. by rewrite Hl.
    + rewrite Hsrc. do 2 f_equal. rewrite field_insert_ne by done.
      rewrite <-sources_for_src_of. unfold prop_of, props_of. by rewrite Hl.
Qed.

(** [aggregate] returns, and what it returns and leaves behind. *)
Lemma aggregate_spec incidents tagDefs tagLinks sources h :
  rows h incidents → rows h tagDefs → rows h tagLinks → rows h sources →
  ∃ h', aggregate incidents tagDefs tagLinks sources h = Return (incidents, h')
        ∧ aggregated h incidents tagDefs tagLinks sources h'.
Proof.
  intros Hi Ht Hl Hs. eexists. split; [by apply aggregate_run|].
  by apply final_heap_aggregated.
Qed.

(** Reading an output record. *)
Lemma aggregated_record h incidents tagDefs tagLinks sources h' incident :
  aggregated h incidents tagDefs tagLinks sources h' →
  is_row h incident → incident ∈ incidents →
  is_row h' incident
  ∧ categories_in h' incident = Some (categories_of h tagDefs tagLinks incident)
  ∧ src_in h' incident = Some (src_of h sources incident)
  ∧ ∀ k, k ≠ "categories" → k ≠ "src" →
         props_of h' incident !! k = props_of h incident !! k.
Proof.
  intros Hag (l & props & -> & Hl) Hin.
  destruct (aggregated_incident _ _ _ _ _ _ Hag l props Hin Hl)
    as (lc & ls & Hlc & Hls & Hcell & Hcats & Hsrc).
  unfold categories_in, src_in, prop_of, props_of. rewrite Hcell, Hl.
  split; [by eexists _, _|].
  rewrite field_insert, field_insert_ne, field_insert by done. simpl.
  rewrite Hcats, Hsrc. split_and!; try done.
  intros k Hk1 Hk2. by rewrite !lookup_insert_ne.
Qed.

End AggregateFacts.

Module OrderFacts.
Import Store Aggregator AggregatorSpec.

(** *** Positions in a concatenation of pieces *)

Lemma flat_map_lookup {A B} (f : A → list B) xs i x n b :
  xs !! i = Some x → f x !! n = Some b →
  flat_map f xs !! (length (flat_map f (take i xs)) + n) = Some b.
Proof.
  revert i. induction xs as [|y xs IH]; intros i Hx Hb; [done|].
  destruct i as [|i]; simpl in *.
  - simplify_eq. by apply lookup_app_l_Some.
  - rewrite length_app, <-Nat.add_assoc, lookup_app_r by lia.
    replace (length (f y) + (length (flat_map f (take i xs)) + n) - length (f y))
      with (length (flat_map f (take i xs)) + n) by lia.
    by apply IH.
Qed.

Lemma flat_map_take_le {A B} (f : A → list B) xs i1 i2 x1 :
  xs !! i1 = Some x1 → i1 < i2 →
  length (flat_map f (take i1 xs)) + length (f x1)
  ≤ length (flat_map f (take i2 xs)).
Proof.
  revert i1 i2. induction xs as [|y xs IH]; intros i1 i2 Hx Hlt; [done|].
  destruct i2 as [|i2]; [lia|]. destruct i1 as [|i1]; simpl in *.
  - simplify_eq. rewrite length_app. lia.
  - rewrite !length_app, <-Nat.add_assoc.
    apply Nat.add_le_mono_l, IH; [done|lia].
Qed.

(** Pieces come in the order of the list, and within one piece in the
    order of the piece. *)
Lemma flat_map_order {A B} (f : A → list B) xs i1 i2 x1 x2 n1 n2 b1 b2 :
  xs !! i1 = Some x1 → xs !! i2 = Some x2 →
  f x1 !! n1 = Some b1 → f x2 !! n2 = Some b2 →
  i1 < i2 ∨ (i1 = i2 ∧ n1 < n2) →
  ∃ m1 m2, m1 < m2 ∧ flat_map f xs !! m1 = Some b1
           ∧ flat_map f xs !! m2 = Some b2.
Proof.
  intros Hx1 Hx2 Hb1 Hb2 Hlt.
  exists (length (flat_map f (take i1 xs)) + n1),
         (length (flat_map f (take i2 xs)) + n2).
  split; [|split; by eapply flat_map_lookup].
  destruct Hlt as [Hlt|[-> Hlt]]; [|lia].
  pose proof (flat_map_take_le f xs i1 i2 x1 Hx1 Hlt).
  pose proof (lookup_lt_Some _ _ _ Hb1). lia.
Qed.

(** *** Counting *)

Lemma count_of_app x xs ys : count_of x (xs ++ ys) = count_of x xs + count_of x ys.
Proof. unfold count_of. by rewrite filter_app, length_app. Qed.

Lemma count_of_replicate x n : count_of x (replicate n x) = n.
Proof.
  unfold count_of. induction n as [|n IH]; [done|].
  simpl. rewrite filter_cons_True by done. simpl. by rewrite IH.
Qed.

Lemma count_of_replicate_ne x y n : y ≠ x → count_of x (replicate n y) = 0.
Proof.
  intros Hne. unfold count_of. induction n as [|n IH]; [done|].
  simpl. by rewrite filter_cons_False.
Qed.

Lemma count_of_filter x (P : value → Prop) `{∀ y, Decision (P y)} xs :
  P x → count_of x (filter P xs) = count_of x xs.
Proof.
  intros HP. unfold count_of. induction xs as [|y xs IH]; [done|].
  rewrite (filter_cons P). destruct (decide (P y)) as [Hy|Hy].
  - rewrite !filter_cons. destruct (decide (y = x)); simpl; by rewrite IH.
  - rewrite IH. rewrite (filter_cons (λ y, y = x)).
    destruct (decide (y = x)) as [->|]; [done|done].
Qed.

Lemma select_replicate {A} (test : A → bool) (b : value) xs :
  flat_map (λ x, if test x then [b] else []) xs
  = replicate (length (filter (λ x, test x = true) xs)) b.
Proof.
  induction xs as [|x xs IH]; [done|].
  simpl. rewrite IH, filter_cons. by destruct (test x).
Qed.

End OrderFacts.

Module AggregatorClaims.
Import Store Aggregator AggregatorSpec AggregatorInputs SharedLabelInputs.
Import StoreFacts AggregatorFacts AttachFacts AggregateFacts OrderFacts.

Lemma rowsb_rows h vs : rowsb h vs = true → rows h vs.
Proof.
  unfold rowsb, rows. induction vs as [|v vs IH]; simpl; [done|].
  intros [Hv Hvs]%andb_prop. constructor; [|by apply IH].
  destruct v as [| | | | |l]; try done. simpl in Hv.
  destruct (h !! l) as [[props|]|] eqn:Hl; try done. by eexists _, _.
Qed.

(** The collections of the examples are rows of their store by evaluation. *)
Ltac rows_by_eval := apply rowsb_rows; reflexivity.

Lemma props_of_frame h h' l :
  h' !! l = h !! l → props_of h' (VRef l) = props_of h (VRef l).
Proof. intros H. unfold props_of. by rewrite H. Qed.

(** C1 as stated fails on the round trip of the specification: the input
    incident has no [categories] and no [src] before the call and has both
    after it, and the record returned is that very object. *)
Lemma aggregate_mutates_incident :
  ∃ h', aggregate [the_incident] [def_tear_gas] [link_tear_gas] [the_source] h0
        = Return ([the_incident], h')
    ∧ h0 !! 0 = Some incident1
    ∧ h' !! 0 ≠ Some incident1
    ∧ props_of h0 the_incident !! "categories" = None
    ∧ props_of h' the_incident !! "categories" = Some (VRef 8)
    ∧ props_of h0 the_incident !! "src" = None
    ∧ props_of h' the_incident !! "src" = Some (VRef 9).
Proof.
  eexists. split; [vm_compute; reflexivity|].
  split_and!; try (vm_compute; reflexivity).
  intros H. apply (f_equal (λ c, match c with
                                 | Some (Object props) => props !! "src"
                                 | _ => None
                                 end)) in H.
  vm_compute in H. discriminate.
Qed.

(** C1, amended: [aggregate] returns the incident objects it was given, not
    copies.  It writes to no object of the store other than the incidents:
    types of force, links and sources that are not incidents themselves
    are unchanged.  Each incident is updated in place: it keeps every
    property other than [categories] and [src], and these two refer to
    arrays created during the call. *)
Theorem aggregate_frame incidents tagDefs tagLinks sources h :
  rows h incidents → rows h tagDefs → rows h tagLinks → rows h sources →
  ∃ h',
    aggregate incidents tagDefs tagLinks sources h = Return (incidents, h')
    ∧ length h ≤ length h'
    ∧ (∀ l, l < length h → VRef l ∉ incidents → h' !! l = h !! l)
    ∧ (∀ row, row ∈ tagDefs ++ tagLinks ++ sources → row ∉ incidents →
         props_of h' row = props_of h row)
    ∧ (∀ incident, incident ∈ incidents →
         is_row h' incident
         ∧ (∀ k, k ≠ "categories" → k ≠ "src" →
              props_of h' incident !! k = props_of h incident !! k)
         ∧ ∃ lc ls, length h ≤ lc ∧ length h ≤ ls
             ∧ props_of h' incident !! "categories" = Some (VRef lc)
             ∧ props_of h' incident !! "src" = Some (VRef ls)
             ∧ is_Some (items_of h' (VRef lc))
             ∧ is_Some (items_of h' (VRef ls))).
Proof.
  intros Hi Ht Hl Hs.
  destruct (aggregate_spec _ _ _ _ _ Hi Ht Hl Hs) as (h' & Hrun & Hag).
  exists h'. split; [done|]. split; [apply Hag|]. split; [apply Hag|]. split.
  - intros row Hin Hnin.
    assert (is_row h row) as (l & props & -> & Hrow).
    { rewrite !elem_of_app in Hin.
      destruct Hin as [Hin|[Hin|Hin]]; eauto using rows_elem. }
    apply props_of_frame, (aggregated_frame _ _ _ _ _ _ Hag); [|done].
    by eapply lookup_lt_Some.
  - intros incident Hin.
    assert (is_row h incident) as Hrow by eauto using rows_elem.
    destruct (aggregated_record _ _ _ _ _ _ _ Hag Hrow Hin) as (Hrow' & _ & _ & Hk).
    split; [done|]. split; [done|].
    destruct Hrow as (l & props & -> & Hcell).
    destruct (aggregated_incident _ _ _ _ _ _ Hag l props Hin Hcell)
      as (lc & ls & Hlc & Hls & Hcell' & Hcats & Hsrc).
    exists lc, ls. unfold props_of, items_of. rewrite Hcell', Hcats, Hsrc.
    rewrite lookup_insert_ne, !lookup_insert_eq by done. by split_and!.
Qed.

Lemma aggregate_frame_witness :
  rows h0 [the_incident] ∧ rows h0 [def_tear_gas] ∧ rows h0 [link_tear_gas]
  ∧ rows h0 [the_source]
  ∧ ∃ h', aggregate [the_incident] [def_tear_gas] [link_tear_gas] [the_source] h0
          = Return ([the_incident], h')
      ∧ h' !! 6 = h0 !! 6.
Proof.
  assert (rows h0 [the_incident]) as Hi by rows_by_eval.
  assert (rows h0 [def_tear_gas]) as Ht by rows_by_eval.
  assert (rows h0 [link_tear_gas]) as Hl by rows_by_eval.
  assert (rows h0 [the_source]) as Hs by rows_by_eval.
  split_and!; try done.
  destruct (aggregate_frame _ _ _ _ _ Hi Ht Hl Hs) as (h' & Hrun & _ & Hframe & _).
  exists h'. split; [done|]. apply Hframe; [simpl; lia|].
  intros Hin%list_elem_of_singleton. discriminate.
Defined.

(** C3: [aggregate] returns one record per incident, in the order of the
    incidents: the record at index [i] is the incident at index [i].  The
    record has every property of the incident (other than [categories] and
    [src], which are set anew) with its value, and its [categories] and
    [src] are arrays. *)
Theorem aggregate_one_record_per_incident incidents tagDefs tagLinks sources h :
  rows h incidents → rows h tagDefs → rows h tagLinks → rows h sources →
  ∃ response h',
    aggregate incidents tagDefs tagLinks sources h = Return (response, h')
    ∧ length response = length incidents
    ∧ ∀ i incident, incidents !! i = Some incident →
        response !! i = Some incident
        ∧ is_row h' incident
        ∧ (∀ k, k ≠ "categories" → k ≠ "src" →
             props_of h' incident !! k = props_of h incident !! k)
        ∧ is_Some (categories_in h' incident)
        ∧ is_Some (src_in h' incident).
Proof.
  intros Hi Ht Hl Hs.
  destruct (aggregate_spec _ _ _ _ _ Hi Ht Hl Hs) as (h' & Hrun & Hag).
  exists incidents, h'. split; [done|]. split; [done|].
  intros i incident Hlookup. split; [done|].
  assert (incident ∈ incidents) as Hin by by eapply list_elem_of_lookup_2.
  assert (is_row h incident) as Hrow by eauto using rows_elem.
  destruct (aggregated_record _ _ _ _ _ _ _ Hag Hrow Hin)
    as (Hrow' & Hcats & Hsrc & Hk).
  rewrite Hcats, Hsrc. by split_and!.
Qed.

Lemma aggregate_one_record_per_incident_witness :
  rows h0 [the_incident] ∧ rows h0 [def_tear_gas; def_baton]
  ∧ rows h0 [link_tear_gas; link_baton; link_dangling] ∧ rows h0 [the_source]
  ∧ ∃ response h',
      aggregate [the_incident] [def_tear_gas; def_baton]
        [link_tear_gas; link_baton; link_dangling] [the_source] h0
      = Return (response, h')
      ∧ length response = 1
      ∧ response !! 0 = Some the_incident.
Proof.
  assert (rows h0 [the_incident]) as Hi by rows_by_eval.
  assert (rows h0 [def_tear_gas; def_baton]) as Ht by rows_by_eval.
  assert (rows h0 [link_tear_gas; link_baton; link_dangling]) as Hl by rows_by_eval.
  assert (rows h0 [the_source]) as Hs by rows_by_eval.
  split_and!; try done.
  destruct (aggregate_one_record_per_incident _ _ _ _ _ Hi Ht Hl Hs)
    as (response & h' & Hrun & Hlen & Hrec).
  exists response, h'. split; [done|]. split; [done|].
  by apply (Hrec 0 the_incident).
Defined.

(** C7: without sources, [aggregate] returns the incidents, one record
    each, and the [src] of every one of these records is the empty array,
    whatever the links and the types of force are. *)
Theorem no_sources_empty_src incidents tagDefs tagLinks h :
  rows h incidents → rows h tagDefs → rows h tagLinks →
  ∃ h',
    aggregate incidents tagDefs tagLinks [] h = Return (incidents, h')
    ∧ ∀ record, record ∈ incidents → src_in h' record = Some [].
Proof.
  intros Hi Ht Hl.
  destruct (aggregate_spec _ _ _ [] _ Hi Ht Hl) as (h' & Hrun & Hag);
    [by constructor|].
  exists h'. split; [done|]. intros record Hin.
  assert (is_row h record) as Hrow by eauto using rows_elem.
  by destruct (aggregated_record _ _ _ _ _ _ _ Hag Hrow Hin) as (_ & _ & -> & _).
Qed.

Lemma no_sources_empty_src_witness :
  rows h0 [the_incident] ∧ rows h0 [def_tear_gas; def_baton]
  ∧ rows h0 [link_tear_gas; link_baton; link_dangling]
  ∧ ∃ h',
      aggregate [the_incident] [def_tear_gas; def_baton]
        [link_tear_gas; link_baton; link_dangling] [] h0
      = Return ([the_incident], h')
      ∧ src_in h' the_incident = Some [].
Proof.
  assert (rows h0 [the_incident]) as Hi by rows_by_eval.
  assert (rows h0 [def_tear_gas; def_baton]) as Ht by rows_by_eval.
  assert (rows h0 [link_tear_gas; link_baton; link_dangling]) as Hl by rows_by_eval.
  split; [done|]. split; [done|]. split; [done|].
  destruct (no_sources_empty_src _ _ _ _ Hi Ht Hl) as (h' & Hrun & Hsrc).
  exists h'. split; [done|]. apply Hsrc, list_elem_of_here.
Defined.

Lemma link_label h connection tof incident :
  resolves h connection tof = true → belongs h connection incident = true →
  (if resolves h connection tof && belongs h connection incident
   then [prop_of h tof "type_of_force"] else []) !! 0
  = Some (prop_of h tof "type_of_force").
Proof. intros -> ->. done. Qed.

(** C2 as stated fails: the link to [baton] comes before the link to
    [tear_gas], both belong to the incident, and yet [tear_gas] comes first
    in [categories], because its definition comes first.  With the two
    definitions swapped the order of the categories is swapped too. *)
Lemma categories_follow_definitions :
  ∃ h' h'',
    aggregate [the_incident] [def_tear_gas; def_baton]
      [link_baton; link_tear_gas] [the_source] h0
    = Return ([the_incident], h')
    ∧ belongs h0 link_baton the_incident = true
    ∧ belongs h0 link_tear_gas the_incident = true
    ∧ categories_by_link h0 [def_tear_gas; def_baton]
        [link_baton; link_tear_gas] the_incident
      = [VStr "baton"; VStr "tear_gas"]
    ∧ categories_in h' the_incident = Some [VStr "tear_gas"; VStr "baton"]
    ∧ aggregate [the_incident] [def_baton; def_tear_gas]
        [link_baton; link_tear_gas] [the_source] h0
      = Return ([the_incident], h'')
    ∧ categories_in h'' the_incident = Some [VStr "baton"; VStr "tear_gas"].
Proof.
  eexists _, _. split; [vm_compute; reflexivity|].
  split; [reflexivity|]. split; [reflexivity|]. split; [reflexivity|].
  split; [vm_compute; reflexivity|]. split; [vm_compute; reflexivity|].
  vm_compute. reflexivity.
Qed.

(** C2, amended: the [categories] of an incident list, for each type of
    force in the order of the definitions and within it for each link in
    the order of the links, the label of the type of force when the link
    names it and belongs to the incident.  So of two labels the one whose
    definition comes first precedes; the order of the links decides only
    between labels of one definition. *)
Theorem categories_order incidents tagDefs tagLinks sources h :
  rows h incidents → rows h tagDefs → rows h tagLinks → rows h sources →
  ∃ h',
    aggregate incidents tagDefs tagLinks sources h = Return (incidents, h')
    ∧ ∀ incident, incident ∈ incidents →
        categories_in h' incident
        = Some (categories_of h tagDefs tagLinks incident)
        ∧ ∀ i1 i2 j1 j2 tof1 tof2 link1 link2,
            tagDefs !! i1 = Some tof1 → tagDefs !! i2 = Some tof2 →
            tagLinks !! j1 = Some link1 → tagLinks !! j2 = Some link2 →
            resolves h link1 tof1 = true → belongs h link1 incident = true →
            resolves h link2 tof2 = true → belongs h link2 incident = true →
            i1 < i2 ∨ (i1 = i2 ∧ j1 < j2) →
            ∃ n1 n2, n1 < n2
              ∧ categories_of h tagDefs tagLinks incident !! n1
                = Some (prop_of h tof1 "type_of_force")
              ∧ categories_of h tagDefs tagLinks incident !! n2
                = Some (prop_of h tof2 "type_of_force").
Proof.
  intros Hi Ht Hl Hs.
  destruct (aggregate_spec _ _ _ _ _ Hi Ht Hl Hs) as (h' & Hrun & Hag).
  exists h'. split; [done|]. intros incident Hin.
  assert (is_row h incident) as Hrow by eauto using rows_elem.
  destruct (aggregated_record _ _ _ _ _ _ _ Hag Hrow Hin) as (_ & Hcats & _).
  split; [done|].
  intros i1 i2 j1 j2 tof1 tof2 link1 link2 Ht1 Ht2 Hl1 Hl2 Hr1 Hb1 Hr2 Hb2 Hlt.
  pose proof (flat_map_lookup
    (λ connection, if resolves h connection tof1 && belongs h connection incident
                   then [prop_of h tof1 "type_of_force"] else [])
    tagLinks j1 link1 0 _ Hl1 (link_label _ _ _ _ Hr1 Hb1)) as Hn1.
  pose proof (flat_map_lookup
    (λ connection, if resolves h connection tof2 && belongs h connection incident
                   then [prop_of h tof2 "type_of_force"] else [])
    tagLinks j2 link2 0 _ Hl2 (link_label _ _ _ _ Hr2 Hb2)) as Hn2.
  unfold categories_of.
  eapply (flat_map_order _ tagDefs i1 i2 tof1 tof2); [done|done|exact Hn1|exact Hn2|].
  destruct Hlt as [Hlt|[-> Hlt]]; [by left|right]. split; [done|].
  assert (tof2 = tof1) as -> by congruence.
  pose proof (flat_map_take_le
    (λ connection, if resolves h connection tof1 && belongs h connection incident
                   then [prop_of h tof1 "type_of_force"] else [])
    tagLinks j1 j2 link1 Hl1 Hlt) as Hle.
  cbv beta in Hle. rewrite Hr1, Hb1 in Hle. simpl in Hle. lia.
Qed.

Lemma categories_order_witness :
  rows h0 [the_incident] ∧ rows h0 [def_tear_gas; def_baton]
  ∧ rows h0 [link_baton; link_tear_gas] ∧ rows h0 [the_source]
  ∧ ∃ h',
      aggregate [the_incident] [def_tear_gas; def_baton]
        [link_baton; link_tear_gas] [the_source] h0
      = Return ([the_incident], h')
      ∧ categories_in h' the_incident = Some [VStr "tear_gas"; VStr "baton"].
Proof.
  assert (rows h0 [the_incident]) as Hi by rows_by_eval.
  assert (rows h0 [def_tear_gas; def_baton]) as Ht by rows_by_eval.
  assert (rows h0 [link_baton; link_tear_gas]) as Hl by rows_by_eval.
  assert (rows h0 [the_source]) as Hs by rows_by_eval.
  split_and!; try done.
  destruct (categories_order _ _ _ _ _ Hi Ht Hl Hs) as (h' & Hrun & Hcats).
  exists h'. split; [done|].
  destruct (Hcats the_incident) as [-> _]; [apply list_elem_of_here|].
  reflexivity.
Defined.

(** *** A link that names no type of force *)

Lemma tags_for_unresolved h tof links1 connection links2 :
  resolves h connection tof = false →
  tags_for h tof (links1 ++ connection :: links2)
  = tags_for h tof (links1 ++ links2).
Proof.
  intros Hun. unfold tags_for. rewrite !flat_map_app. f_equal. simpl.
  unfold resolves in Hun. by rewrite Hun.
Qed.

Lemma tags_of_unresolved h tagDefs links1 connection links2 :
  (∀ tof, tof ∈ tagDefs → resolves h connection tof = false) →
  tags_of h tagDefs (links1 ++ connection :: links2)
  = tags_of h tagDefs (links1 ++ links2).
Proof.
  intros Hun. unfold tags_of.
  induction tagDefs as [|tof tagDefs IH]; [done|]. simpl.
  rewrite IH by (intros tof' Hin; apply Hun; by apply list_elem_of_further).
  by rewrite tags_for_unresolved by apply Hun, list_elem_of_here.
Qed.

(** C6: a link whose [type_of_force_id] is that of no type of force raises
    no error and adds nothing: [aggregate] returns, and it returns and
    leaves behind exactly what it does when that link is removed from the
    collection, so the other links are handled as without it. *)
Theorem unresolved_link_skipped incidents tagDefs links1 connection links2
    sources h :
  rows h incidents → rows h tagDefs →
  rows h (links1 ++ connection :: links2) → rows h sources →
  (∀ tof, tof ∈ tagDefs → resolves h connection tof = false) →
  ∃ h',
    aggregate incidents tagDefs (links1 ++ connection :: links2) sources h
    = Return (incidents, h')
    ∧ aggregate incidents tagDefs (links1 ++ links2) sources h
      = Return (incidents, h')
    ∧ ∀ incident, incident ∈ incidents →
        categories_in h' incident
        = Some (categories_of h tagDefs (links1 ++ links2) incident).
Proof.
  intros Hi Ht Hl Hs Hun.
  assert (rows h (links1 ++ links2)) as Hl'.
  { apply Forall_app in Hl as [Hl1 [_ Hl2]%Forall_cons]. by apply Forall_app. }
  destruct (aggregate_spec _ _ _ _ _ Hi Ht Hl' Hs) as (h' & Hrun & Hag).
  exists h'. split; [|split; [done|]].
  - rewrite aggregate_run in Hrun |- * by done.
    unfold final_heap in Hrun |- *. by rewrite tags_of_unresolved.
  - intros incident Hin.
    assert (is_row h incident) as Hrow by eauto using rows_elem.
    by destruct (aggregated_record _ _ _ _ _ _ _ Hag Hrow Hin) as (_ & -> & _).
Qed.

Lemma unresolved_link_skipped_witness :
  rows h0 [the_incident] ∧ rows h0 [def_tear_gas; def_baton]
  ∧ rows h0 ([link_tear_gas] ++ link_dangling :: [link_baton])
  ∧ rows h0 [the_source]
  ∧ (∀ tof, tof ∈ [def_tear_gas; def_baton] →
       resolves h0 link_dangling tof = false)
  ∧ ∃ h',
      aggregate [the_incident] [def_tear_gas; def_baton]
        ([link_tear_gas] ++ link_dangling :: [link_baton]) [the_source] h0
      = Return ([the_incident], h')
      ∧ aggregate [the_incident] [def_tear_gas; def_baton]
          ([link_tear_gas] ++ [link_baton]) [the_source] h0
        = Return ([the_incident], h')
      ∧ categories_in h' the_incident = Some [VStr "tear_gas"; VStr "baton"].
Proof.
  assert (rows h0 [the_incident]) as Hi by rows_by_eval.
  assert (rows h0 [def_tear_gas; def_baton]) as Ht by rows_by_eval.
  assert (rows h0 ([link_tear_gas] ++ link_dangling :: [link_baton])) as Hl
    by rows_by_eval.
  assert (rows h0 [the_source]) as Hs by rows_by_eval.
  assert (∀ tof, tof ∈ [def_tear_gas; def_baton] →
            resolves h0 link_dangling tof = false) as Hun.
  { intros tof Hin. repeat (apply elem_of_cons in Hin as [->|Hin]);
      [reflexivity..|by apply elem_of_nil in Hin]. }
  split_and!; try done.
  destruct (unresolved_link_skipped _ _ _ _ _ _ _ Hi Ht Hl Hs Hun)
    as (h' & Hrun & Hrun' & Hcats).
  exists h'. split; [done|]. split; [done|].
  rewrite (Hcats the_incident) by apply list_elem_of_here. reflexivity.
Defined.

(** *** Multiplicities *)

Lemma categories_of_replicate h tagDefs tagLinks incident :
  categories_of h tagDefs tagLinks incident
  = flat_map (λ tof, replicate (link_count h tagLinks tof incident)
                       (prop_of h tof "type_of_force")) tagDefs.
Proof.
  unfold categories_of, link_count. apply flat_map_ext. intros tof.
  apply (select_replicate
           (λ connection, resolves h connection tof && belongs h connection incident)).
Qed.

Lemma count_of_labels_ne (n : value → nat) (label : value → value) x tofs :
  (∀ tof, tof ∈ tofs → label tof ≠ x) →
  count_of x (flat_map (λ tof, replicate (n tof) (label tof)) tofs) = 0.
Proof.
  induction tofs as [|tof tofs IH]; intros Hne; [done|]. simpl.
  rewrite count_of_app, count_of_replicate_ne by apply Hne, list_elem_of_here.
  apply IH. intros tof' Hin. by apply Hne, list_elem_of_further.
Qed.

Lemma count_of_labels_ge (n : value → nat) (label : value → value) tof tofs :
  tof ∈ tofs →
  n tof ≤ count_of (label tof)
            (flat_map (λ tof, replicate (n tof) (label tof)) tofs).
Proof.
  intros (before & after & ->)%list_elem_of_split.
  rewrite flat_map_app. simpl.
  rewrite !count_of_app, count_of_replicate. lia.
Qed.

Lemma count_of_labels_unique (n : value → nat) (label : value → value)
    before tof after :
  (∀ tof', tof' ∈ before ++ after → label tof' ≠ label tof) →
  count_of (label tof)
    (flat_map (λ tof, replicate (n tof) (label tof)) (before ++ tof :: after))
  = n tof.
Proof.
  intros Hne. rewrite flat_map_app. simpl.
  rewrite !count_of_app, count_of_replicate.
  rewrite !count_of_labels_ne; [lia|..];
    intros tof' Hin; apply Hne, elem_of_app; auto.
Qed.

(** C10 as stated fails when two definitions carry one label: the pair of
    type of force 1 and incident 1 occurs once among the links, and so does
    the pair of type of force 5 and incident 1, yet the label [tear_gas],
    which both types of force have, is twice in the [categories]. *)
Lemma shared_label_counted_twice :
  ∃ h',
    aggregate [shared_incident] [shared_def_1; shared_def_5]
      [shared_link_1; shared_link_5] [] shared_store
    = Return ([shared_incident], h')
    ∧ link_count shared_store [shared_link_1; shared_link_5]
        shared_def_1 shared_incident = 1
    ∧ link_count shared_store [shared_link_1; shared_link_5]
        shared_def_5 shared_incident = 1
    ∧ prop_of shared_store shared_def_1 "type_of_force" = VStr "tear_gas"
    ∧ prop_of shared_store shared_def_5 "type_of_force" = VStr "tear_gas"
    ∧ categories_in h' shared_incident
      = Some [VStr "tear_gas"; VStr "tear_gas"]
    ∧ count_of (VStr "tear_gas") [VStr "tear_gas"; VStr "tear_gas"] = 2.
Proof.
  eexists. split; [vm_compute; reflexivity|].
  split_and!; vm_compute; reflexivity.
Qed.

(** C10, amended: nothing is deduplicated.  A type of force contributes its
    label to the [categories] of an incident once for every link that names
    it and belongs to the incident: with [n] such links the label is there
    at least [n] times, and exactly [n] times when no other definition has
    the same label.  The [src] of the incident are the sources that belong
    to it, each as often as it occurs in the collection. *)
Theorem no_deduplication incidents tagDefs tagLinks sources h :
  rows h incidents → rows h tagDefs → rows h tagLinks → rows h sources →
  ∃ h',
    aggregate incidents tagDefs tagLinks sources h = Return (incidents, h')
    ∧ ∀ incident, incident ∈ incidents →
        ∃ categories src,
          categories_in h' incident = Some categories
          ∧ src_in h' incident = Some src
          ∧ categories
            = flat_map (λ tof, replicate (link_count h tagLinks tof incident)
                                 (prop_of h tof "type_of_force")) tagDefs
          ∧ (∀ tof, tof ∈ tagDefs →
               link_count h tagLinks tof incident
               ≤ count_of (prop_of h tof "type_of_force") categories)
          ∧ (∀ before tof after,
               tagDefs = before ++ tof :: after →
               (∀ tof', tof' ∈ before ++ after →
                  prop_of h tof' "type_of_force" ≠ prop_of h tof "type_of_force") →
               count_of (prop_of h tof "type_of_force") categories
               = link_count h tagLinks tof incident)
          ∧ src = filter (λ source, belongs h source incident = true) sources
          ∧ (∀ source, belongs h source incident = true →
               count_of source src = count_of source sources).
Proof.
  intros Hi Ht Hl Hs.
  destruct (aggregate_spec _ _ _ _ _ Hi Ht Hl Hs) as (h' & Hrun & Hag).
  exists h'. split; [done|]. intros incident Hin.
  assert (is_row h incident) as Hrow by eauto using rows_elem.
  destruct (aggregated_record _ _ _ _ _ _ _ Hag Hrow Hin) as (_ & Hcats & Hsrc & _).
  eexists _, _. split; [exact Hcats|]. split; [exact Hsrc|].
  rewrite categories_of_replicate. split; [done|]. split; [|split; [|split]].
  - intros tof Htof.
    apply (count_of_labels_ge (λ tof, link_count h tagLinks tof incident)
             (λ tof, prop_of h tof "type_of_force") tof tagDefs Htof).
  - intros before tof after -> Hne.
    apply (count_of_labels_unique (λ tof, link_count h tagLinks tof incident)
             (λ tof, prop_of h tof "type_of_force") before tof after Hne).
  - done.
  - intros source Hb. unfold src_of.
    by apply (count_of_filter source (λ source, belongs h source incident = true)).
Qed.

Lemma no_deduplication_witness :
  rows h0 [the_incident] ∧ rows h0 [def_tear_gas; def_baton]
  ∧ rows h0 [link_tear_gas; link_baton; link_tear_gas_again]
  ∧ rows h0 [the_source; the_source]
  ∧ ∃ h',
      aggregate [the_incident] [def_tear_gas; def_baton]
        [link_tear_gas; link_baton; link_tear_gas_again]
        [the_source; the_source] h0
      = Return ([the_incident], h')
      ∧ categories_in h' the_incident
        = Some [VStr "tear_gas"; VStr "tear_gas"; VStr "baton"]
      ∧ src_in h' the_incident = Some [the_source; the_source].
Proof.
  assert (rows h0 [the_incident]) as Hi by rows_by_eval.
  assert (rows h0 [def_tear_gas; def_baton]) as Ht by rows_by_eval.
  assert (rows h0 [link_tear_gas; link_baton; link_tear_gas_again]) as Hl
    by rows_by_eval.
  assert (rows h0 [the_source; the_source]) as Hs by rows_by_eval.
  split_and!; try done.
  destruct (no_deduplication _ _ _ _ _ Hi Ht Hl Hs) as (h' & Hrun & Hall).
  exists h'. split; [done|].
  destruct (Hall the_incident) as (categories & src & -> & -> & -> & _ & _ & -> & _);
    [apply list_elem_of_here|].
  split; reflexivity.
Defined.

End AggregatorClaims.

(** * Further properties of the source classifier *)

Module ClassifierMore.
Import JsString Classifier ClassifierSpec MoreSpec.
Import StFacts JsStringFacts ClassifierFacts.

Lemma starts_with_cons p a s b :
  starts_with (String a p) (String b s)
  = if Ascii.eqb a b then starts_with p s else false.
Proof. unfold starts_with. simpl. by destruct (Ascii.eqb a b). Qed.

Lemma starts_with_longer p q s :
  starts_with p s = false → starts_with (p +:+ q) s = false.
Proof.
  revert s. induction p as [|a p IH]; intros s; [by destruct s|].
  change (String a p +:+ q) with (String a (p +:+ q)).
  destruct s as [|b s]; [done|]. rewrite !starts_with_cons.
  destruct (Ascii.eqb a b); [apply IH|done].
Qed.

Lemma occurs_longer p q s : occurs p s = false → occurs (p +:+ q) s = false.
Proof.
  induction s as [|c s IH]; simpl; intros [H1 H2]%orb_false_elim.
  - by rewrite starts_with_longer.
  - by rewrite starts_with_longer, IH.
Qed.

Lemma split_go_no_occurrence sep s :
  occurs sep s = false → split_go sep 0 s = [s].
Proof.
  induction s as [|c s IH]; simpl; intros [H1 H2]%orb_false_elim; [done|].
  by rewrite H1, IH.
Qed.

(** Without an occurrence of the separator there is one piece. *)
Lemma split_no_occurrence sep s :
  sep ≠ "" → occurs sep s = false → split sep s = [s].
Proof.
  intros Hsep Hocc. destruct sep; [done|]. by apply split_go_no_occurrence.
Qed.

Lemma text_before_no_occurrence sep s :
  occurs sep s = false → text_before sep s = s.
Proof.
  induction s as [|c s IH]; simpl; intros [H1 H2]%orb_false_elim.
  - by rewrite H1.
  - by rewrite H1, IH.
Qed.

Lemma text_before_https rest :
  split "https://" ("https://" +:+ rest) !! 1%nat
  = Some (text_before "https://" rest).
Proof.
  cbv [String.append]. unfold split.
  change (split_go "https://" 0 rest !! 0%nat = Some (text_before "https://" rest)).
  apply split_go_head.
Qed.

(** The token of a citation [https://www.] followed by [rest]. *)
Lemma host_token_www rest :
  host_token ("https://www." +:+ rest) = Return (Some (www_token rest)).
Proof.
  unfold host_token, www_token. rewrite text_before_www.
  destruct (text_before "https://www." rest) as [|c segment] eqn:Hseg; simpl.
  - apply text_before_nil_inv in Hseg as [->|Hpre]; [reflexivity|].
    apply starts_with_true in Hpre as [r ->]. cbv [String.append]. reflexivity.
  - by rewrite split_head.
Qed.

(** The token of a citation without [https://www.] in it that starts with
    [https://]: the text up to the next [https://], cut at [.com], and
    shortened when it is long. *)
Lemma host_token_https rest :
  occurs "https://www." ("https://" +:+ rest) = false →
  host_token ("https://" +:+ rest)
  = Return
      (let components2 := text_before ".com" (text_before "https://" rest) in
       if (11 <? String.length components2)%nat then
         let comps3 := text_before ".org" components2 in
         if (10 <? String.length comps3)%nat
         then Some (text_before "." comps3) else Some comps3
       else Some components2).
Proof.
  intros Hocc. unfold host_token.
  rewrite (split_no_occurrence "https://www.") by done.
  rewrite text_before_https. simpl. rewrite split_head by done. simpl.
  destruct (11 <? _)%nat; [|done].
  rewrite split_head by done. simpl.
  destruct (10 <? _)%nat; [|done]. by rewrite split_head.
Qed.

Lemma cases_inv hosts label key :
  (hosts, label) ∈ cases → key ∈ hosts →
  switch_url (Some key) = label ∧ key ∈ table_keys.
Proof.
  intros Hcase Hkey. unfold cases in Hcase.
  repeat (apply elem_of_cons in Hcase as [[= -> ->]|Hcase]);
    [..|by apply elem_of_nil in Hcase].
  all: unfold table_keys; rewrite !elem_of_app; split; [|by auto 10].
  all: repeat (apply elem_of_cons in Hkey as [->|Hkey]);
    [reflexivity..|by apply elem_of_nil in Hkey].
Qed.

Lemma www_token_key key rest :
  key ∈ table_keys → www_token (key +:+ ".com" +:+ rest) = key.
Proof.
  unfold table_keys, video_hosts, post_hosts, court_document_hosts,
    image_hosts, police_report_hosts. simpl app. intros Hkey.
  repeat (apply elem_of_cons in Hkey as [->|Hkey]);
    [reflexivity..|by apply elem_of_nil in Hkey].
Qed.

Lemma https_token_key key rest :
  key ∈ table_keys →
  occurs "https://www." rest = false →
  host_token ("https://" +:+ key +:+ ".com" +:+ rest) = Return (Some key).
Proof.
  unfold table_keys, video_hosts, post_hosts, court_document_hosts,
    image_hosts, police_report_hosts. simpl app. intros Hkey Hocc.
  repeat (apply elem_of_cons in Hkey as [->|Hkey]);
    [..|by apply elem_of_nil in Hkey].
  all: rewrite host_token_https; [reflexivity|].
  all: cbv [String.append]; simpl; exact Hocc.
Qed.

Lemma Forall2_classify_unique sources rs rs' :
  Forall2 (λ source r, classify source = Return r) sources rs →
  Forall2 (λ source r, classify source = Return r) sources rs' →
  rs = rs'.
Proof.
  intros H. revert rs'. induction H as [|source r sources rs Hr _ IH];
    intros rs' H'.
  - by apply Forall2_nil_inv_l in H'.
  - apply Forall2_cons_inv_l in H' as (r' & rs'' & Hr' & H' & ->).
    f_equal; [congruence|by apply IH].
Qed.

(** X1: a citation [https://www.<key>.com<rest>] whose [<key>] is a key of
    the lookup table gets the label of that key, whatever follows [.com]. *)
Theorem www_key_classified hosts label key rest :
  (hosts, label) ∈ cases → key ∈ hosts →
  classify ("https://www." +:+ key +:+ ".com" +:+ rest)
  = Return {| src_url := "https://www." +:+ key +:+ ".com" +:+ rest;
              src_type := label |}.
Proof.
  intros Hcase Hkey. destruct (cases_inv _ _ _ Hcase Hkey) as [Hlabel Htable].
  unfold classify. by rewrite host_token_www, www_token_key, Hlabel.
Qed.

Lemma www_key_classified_witness :
  (video_hosts, "video") ∈ cases ∧ "youtube" ∈ video_hosts
  ∧ classify "https://www.youtube.com/watch?v=1"
    = Return {| src_url := "https://www.youtube.com/watch?v=1";
                src_type := "video" |}.
Proof.
  assert ((video_hosts, "video") ∈ cases) as Hcase by apply list_elem_of_here.
  assert ("youtube" ∈ video_hosts) as Hkey by apply list_elem_of_here.
  split; [done|]. split; [done|].
  exact (www_key_classified _ _ _ "/watch?v=1" Hcase Hkey).
Defined.

(** X2: a citation [https://<key>.com<rest>] whose [<key>] is a key of the
    lookup table gets the label of that key, provided no [https://www.]
    occurs in [<rest>]: every key is at most 11 characters long, so none is
    shortened. *)
Theorem https_key_classified hosts label key rest :
  (hosts, label) ∈ cases → key ∈ hosts →
  occurs "https://www." rest = false →
  classify ("https://" +:+ key +:+ ".com" +:+ rest)
  = Return {| src_url := "https://" +:+ key +:+ ".com" +:+ rest;
              src_type := label |}.
Proof.
  intros Hcase Hkey Hocc.
  destruct (cases_inv _ _ _ Hcase Hkey) as [Hlabel Htable].
  unfold classify. by rewrite https_token_key, Hlabel.
Qed.

Lemma https_key_classified_witness :
  (post_hosts, "post") ∈ cases ∧ "twitter" ∈ post_hosts
  ∧ occurs "https://www." "/x/status/1" = false
  ∧ classify "https://twitter.com/x/status/1"
    = Return {| src_url := "https://twitter.com/x/status/1";
                src_type := "post" |}.
Proof.
  assert ((post_hosts, "post") ∈ cases) as Hcase
    by apply list_elem_of_further, list_elem_of_here.
  assert ("twitter" ∈ post_hosts) as Hkey
    by apply list_elem_of_further, list_elem_of_here.
  split; [done|]. split; [done|]. split; [reflexivity|].
  exact (https_key_classified _ _ _ "/x/status/1" Hcase Hkey eq_refl).
Defined.

(** X3: on the [https://] branch a host of at most 11 characters is looked
    up as it is: when the text after [https://] has no [.com] and no further
    [https://], does not start with [www.] and is at most 11 characters long,
    it is the token, with its [.org] and its dots.  So [https://nlg-la.org]
    is not recognised as a court document. *)
Theorem short_host_kept (host : string) :
  String.length host ≤ 11 →
  occurs ".com" host = false → occurs "https://" host = false →
  starts_with "www." host = false →
  host_token ("https://" +:+ host) = Return (Some host)
  ∧ classify ("https://" +:+ host)
    = Return {| src_url := "https://" +:+ host;
                src_type := switch_url (Some host) |}.
Proof.
  intros Hlen Hcom Hhttps Hwww.
  assert (host_token ("https://" +:+ host) = Return (Some host)) as Htoken.
  { rewrite host_token_https.
    - rewrite (text_before_no_occurrence "https://"), text_before_no_occurrence
        by done.
      simpl. by rewrite (proj2 (Nat.ltb_ge _ _) Hlen).
    - cbv [String.append]. simpl occurs.
      rewrite !starts_with_cons. simpl. rewrite Hwww. simpl.
      apply (occurs_longer "https://" "www."), Hhttps. }
  split; [done|]. unfold classify. by rewrite Htoken.
Qed.

Lemma short_host_kept_witness :
  String.length "nlg-la.org" ≤ 11
  ∧ occurs ".com" "nlg-la.org" = false ∧ occurs "https://" "nlg-la.org" = false
  ∧ starts_with "www." "nlg-la.org" = false
  ∧ classify "https://nlg-la.org"
    = Return {| src_url := "https://nlg-la.org"; src_type := "article" |}.
Proof.
  assert (String.length "nlg-la.org" ≤ 11) as Hlen by (simpl; lia).
  split; [done|]. split; [reflexivity|]. split; [reflexivity|].
  split; [reflexivity|].
  exact (proj2 (short_host_kept "nlg-la.org" Hlen eq_refl eq_refl eq_refl)).
Defined.

(** X4: a citation in which [https://] does not occur (a plain word, an
    [http://] link) has the empty token and is an article. *)
Theorem no_https_article (source : string) :
  occurs "https://" source = false →
  host_token source = Return (Some "")
  ∧ classify source = Return {| src_url := source; src_type := "article" |}.
Proof.
  intros Hocc.
  assert (host_token source = Return (Some "")) as Htoken.
  { unfold host_token.
    rewrite (split_no_occurrence "https://www.")
      by (done || apply (occurs_longer "https://" "www."), Hocc).
    simpl. by rewrite (split_no_occurrence "https://"). }
  split; [done|]. unfold classify. by rewrite Htoken.
Qed.

Lemma no_https_article_witness :
  occurs "https://" "http://www.youtube.com/watch" = false
  ∧ classify "http://www.youtube.com/watch"
    = Return {| src_url := "http://www.youtube.com/watch";
                src_type := "article" |}.
Proof.
  split; [reflexivity|].
  exact (proj2 (no_https_article "http://www.youtube.com/watch" eq_refl)).
Defined.

(** X5: [processSources] returns one record per citation, in the order of
    the citations: the record at index [i] is the classification of the
    citation at index [i], its [src_url] is that citation and its
    [src_type] is one of the six labels. *)
Theorem processSources_in_order (sources : list string) (g : globals) :
  ∃ rs,
    processSources sources g = Return (rs, {| incident_src := Some rs |})
    ∧ length rs = length sources
    ∧ src_url <$> rs = sources
    ∧ Forall (λ r, src_type r ∈ src_types) rs
    ∧ ∀ i source, sources !! i = Some source →
        ∃ r, rs !! i = Some r ∧ classify source = Return r.
Proof.
  destruct (processSources_spec sources g) as (rs & Hrun & Hall).
  exists rs. split; [done|]. split; [symmetry; by eapply Forall2_length|].
  split; [|split].
  - clear Hrun. induction Hall as [|source r sources rs Hr _ IH]; [done|].
    simpl. f_equal; [|done]. by apply classify_Return in Hr as [-> _].
  - clear Hrun. induction Hall as [|source r sources rs Hr _ IH];
      constructor; [|done].
    apply classify_Return in Hr as (_ & url & _ & ->). apply switch_url_closed.
  - intros i source Hi.
    destruct (Forall2_lookup_l _ _ _ _ _ Hall Hi) as (r & Hr & Hc). eauto.
Qed.

(** X6: every call starts from an empty array: a call after another one
    returns only its own records, and classifying two batches one after the
    other gives the records of classifying them at once. *)
Theorem processSources_batches (xs ys : list string) (g : globals) :
  ∃ rx ry,
    processSources xs g = Return (rx, {| incident_src := Some rx |})
    ∧ processSources ys {| incident_src := Some rx |}
      = Return (ry, {| incident_src := Some ry |})
    ∧ processSources (xs ++ ys) g
      = Return (rx ++ ry, {| incident_src := Some (rx ++ ry) |}).
Proof.
  destruct (processSources_spec xs g) as (rx & Hx & Hallx).
  destruct (processSources_spec ys {| incident_src := Some rx |})
    as (ry & Hy & Hally).
  destruct (processSources_spec (xs ++ ys) g) as (rs & Hs & Halls).
  exists rx, ry. split; [done|]. split; [done|].
  rewrite Hs.
  by rewrite (Forall2_classify_unique _ _ _ Halls (Forall2_app Hallx Hally)).
Qed.

(** X18: the token of a citation that starts with [https://] and has no
    [https://www.] in it: the text up to the next [https://] is cut at its
    first [.com]; when the result is longer than 11 characters it is cut at
    its first [.org], and when that is still longer than 10 characters, at
    its first dot. *)
Theorem https_branch_token (rest : string) :
  occurs "https://www." ("https://" +:+ rest) = false →
  host_token ("https://" +:+ rest)
  = Return
      (let components2 := text_before ".com" (text_before "https://" rest) in
       if (11 <? String.length components2)%nat then
         let comps3 := text_before ".org" components2 in
         if (10 <? String.length comps3)%nat
         then Some (text_before "." comps3) else Some comps3
       else Some components2).
Proof. apply host_token_https. Qed.

Lemma https_branch_token_witness :
  occurs "https://www." ("https://" +:+ "drive.google.com/file") = false
  ∧ host_token ("https://" +:+ "drive.google.com/file") = Return (Some "drive").
Proof.
  split; [reflexivity|].
  exact (https_branch_token "drive.google.com/file" eq_refl).
Defined.

End ClassifierMore.

(** * Properties of the rest of the middleware *)

Module MiddlewareFacts.
Import Store Aggregator Middleware MoreSpec StoreFacts.

Lemma hasOwnProperty_row l props k h :
  h !! l = Some (Object props) → props !! "hasOwnProperty" = None →
  hasOwnProperty (VRef l) k h = Return (bool_decide (is_Some (props !! k)), h).
Proof.
  intros Hl Hown. unfold hasOwnProperty.
  rewrite (bind_Return _ _ _ _ _ (deref_row _ _ _ Hl)). by rewrite Hown.
Qed.

Lemma filled_field props k :
  filled (field props k) = true → is_Some (props !! k).
Proof.
  unfold field. destruct (props !! k); [by eexists|done].
Qed.

(** The loop with its early [return] is a conjunction over the keys, and
    it only reads the store. *)
Lemma validate_from_run l props keys h :
  h !! l = Some (Object props) → props !! "hasOwnProperty" = None →
  validate_from (VRef l) keys h
  = Return (forallb (λ k, match props !! k with
                          | Some v => filled v
                          | None => false
                          end) keys, h).
Proof.
  intros Hl Hown. induction keys as [|k keys IH]; [done|].
  simpl validate_from.
  rewrite (bind_Return _ _ _ _ _ (hasOwnProperty_row _ _ k _ Hl Hown)).
  unfold forallb. fold (forallb (λ k, match props !! k with
                                      | Some v => filled v
                                      | None => false
                                      end) keys).
  unfold field, filled. destruct (props !! k) as [v|] eqn:Hk; simpl; [|done].
  rewrite (bind_Return _ _ _ _ _ (get_prop_row _ _ k _ Hl)).
  unfold field. rewrite Hk. simpl.
  destruct (strict_eq v (VStr "")); simpl; [done|].
  rewrite (bind_Return _ _ _ _ _ (get_prop_row _ _ k _ Hl)).
  unfold field. rewrite Hk. simpl.
  destruct (strict_eq v VUndef); simpl; [done|].
  rewrite (bind_Return _ _ _ _ _ (get_prop_row _ _ k _ Hl)).
  unfold field. rewrite Hk. simpl.
  destruct (strict_eq v VNull); simpl; [done|]. apply IH.
Qed.

Lemma validateIncidents_run l props h :
  h !! l = Some (Object props) → props !! "hasOwnProperty" = None →
  validateIncidents (VRef l) h = Return (complete props, h).
Proof. apply validate_from_run. Qed.

Lemma filled_spec v :
  filled v = true ↔ v ≠ VStr "" ∧ v ≠ VUndef ∧ v ≠ VNull.
Proof.
  unfold filled, strict_eq. rewrite negb_true_iff, !orb_false_iff.
  rewrite !bool_decide_eq_false. tauto.
Qed.

Lemma complete_spec props :
  complete props = true
  ↔ ∀ k, k ∈ incident_keys →
      ∃ v, props !! k = Some v ∧ v ≠ VStr "" ∧ v ≠ VUndef ∧ v ≠ VNull.
Proof.
  unfold complete. rewrite forallb_forall. split.
  - intros H k Hk. apply list_elem_of_In, H in Hk.
    destruct (props !! k) as [v|]; [|done]. exists v. by rewrite <-filled_spec.
  - intros H k Hk. apply list_elem_of_In, H in Hk as (v & -> & Hv).
    by apply filled_spec.
Qed.

Lemma complete_insert_other props k v :
  k ∉ incident_keys → complete (<[k := v]> props) = complete props.
Proof.
  unfold complete. induction incident_keys as [|k' keys IH]; [done|].
  intros [Hne Hk]%not_elem_of_cons. simpl.
  by rewrite lookup_insert_ne, IH.
Qed.

Lemma getStateAbbrev_miss states state :
  Forall (λ row, at_index row 0 ≠ state) states →
  getStateAbbrev states state = VBool false.
Proof.
  induction 1 as [|row states Hrow _ IH]; [done|]. simpl.
  unfold strict_eq. by rewrite bool_decide_eq_false_2.
Qed.

Lemma getStateAbbrev_first before row after state :
  Forall (λ row, at_index row 0 ≠ state) before →
  at_index row 0 = state →
  getStateAbbrev (before ++ row :: after) state = at_index row 1.
Proof.
  intros Hbefore Hrow. induction Hbefore as [|row' before Hrow' _ IH]; simpl.
  - unfold strict_eq. by rewrite bool_decide_eq_true_2.
  - unfold strict_eq. by rewrite bool_decide_eq_false_2.
Qed.

End MiddlewareFacts.

Module MiddlewareMore.
Import Store Aggregator Middleware MoreSpec StoreFacts MiddlewareFacts.

(** X7: for an incident object (one without an own property
    [hasOwnProperty]) [validateIncidents] answers [true] exactly when each of
    the nine required keys is an own property whose value is not the empty
    string, [undefined] or [null]; any other value, zero and [false]
    included, is accepted.  It leaves the store as it is. *)
Theorem validateIncidents_accepts (l : nat) (props : gmap string value)
    (h : list cell) :
  h !! l = Some (Object props) → props !! "hasOwnProperty" = None →
  ∃ b, validateIncidents (VRef l) h = Return (b, h)
    ∧ (b = true
       ↔ ∀ k, k ∈ incident_keys →
           ∃ v, props !! k = Some v ∧ v ≠ VStr "" ∧ v ≠ VUndef ∧ v ≠ VNull).
Proof.
  intros Hl Hown. exists (complete props).
  split; [by apply validateIncidents_run|apply complete_spec].
Qed.

Lemma validateIncidents_accepts_witness :
  test_store !! 0 = Some (Object test_incident)
  ∧ test_incident !! "hasOwnProperty" = None
  ∧ validateIncidents (VRef 0) test_store = Return (true, test_store).
Proof.
  split; [reflexivity|]. split; [reflexivity|].
  destruct (validateIncidents_accepts 0 test_incident test_store eq_refl eq_refl)
    as (b & Hrun & Hb).
  rewrite Hrun. do 2 f_equal. vm_compute in Hrun. by injection Hrun.
Defined.

(** X8: [validateIncidents] throws a [TypeError] on [undefined], on [null]
    and on an object that has an own property named [hasOwnProperty] (which
    a parsed request body can have): the method call of line 26 fails. *)
Theorem validateIncidents_throws (incident : value) (h : list cell) :
  incident = VUndef ∨ incident = VNull
  ∨ (∃ l props v, incident = VRef l ∧ h !! l = Some (Object props)
                  ∧ props !! "hasOwnProperty" = Some v) →
  validateIncidents incident h = Throw TypeError.
Proof.
  intros [->|[->|(l & props & v & -> & Hl & Hown)]]; [done|done|].
  unfold validateIncidents. simpl validate_from. rewrite bind_run.
  unfold hasOwnProperty.
  rewrite (bind_Return _ _ _ _ _ (deref_row _ _ _ Hl)). by rewrite Hown.
Qed.

Lemma validateIncidents_throws_witness :
  validateIncidents (VRef 0)
    [Object (<["hasOwnProperty" := VStr "x"]> test_incident)]
  = Throw TypeError.
Proof.
  apply validateIncidents_throws. right. right.
  eexists 0, _, (VStr "x"). split; [reflexivity|]. split; reflexivity.
Defined.

(** X9: properties that are not required are ignored: adding or changing a
    property whose key is none of the nine (nor [hasOwnProperty]) does not
    change the answer. *)
Theorem validateIncidents_ignores (l : nat) (props : gmap string value)
    (k : string) (v : value) (h : list cell) :
  h !! l = Some (Object props) → props !! "hasOwnProperty" = None →
  k ∉ incident_keys → k ≠ "hasOwnProperty" →
  ∃ b, validateIncidents (VRef l) h = Return (b, h)
    ∧ validateIncidents (VRef l) (<[l := Object (<[k := v]> props)]> h)
      = Return (b, <[l := Object (<[k := v]> props)]> h).
Proof.
  intros Hl Hown Hk Hk'. exists (complete props).
  split; [by apply validateIncidents_run|].
  rewrite (validateIncidents_run l (<[k := v]> props)).
  - by rewrite complete_insert_other.
  - apply list_lookup_insert_eq. by eapply lookup_lt_Some.
  - by rewrite lookup_insert_ne.
Qed.

Lemma validateIncidents_ignores_witness :
  test_store !! 0 = Some (Object test_incident)
  ∧ test_incident !! "hasOwnProperty" = None
  ∧ ("id" ∉ incident_keys) ∧ ("id" ≠ "hasOwnProperty")
  ∧ ∃ b, validateIncidents (VRef 0) test_store = Return (b, test_store)
      ∧ validateIncidents (VRef 0)
          (<[0 := Object (<["id" := VNull]> test_incident)]> test_store)
        = Return (b, <[0 := Object (<["id" := VNull]> test_incident)]> test_store).
Proof.
  assert ("id" ∉ incident_keys) as Hk.
  { unfold incident_keys. rewrite !not_elem_of_cons. split_and!; try done.
    apply not_elem_of_nil. }
  split; [reflexivity|]. split; [reflexivity|]. split; [done|]. split; [done|].
  exact (validateIncidents_ignores 0 test_incident "id" VNull test_store
           eq_refl eq_refl Hk ltac:(done)).
Defined.

(** X10: [getStateAbbrev] returns the second entry of the first row whose
    first entry is the state asked for, and [false] when no row has it. *)
Theorem getStateAbbrev_first_match (states : list (list value)) (state : value) :
  (Forall (λ row, at_index row 0 ≠ state) states →
   getStateAbbrev states state = VBool false)
  ∧ ∀ before row after,
      states = before ++ row :: after →
      Forall (λ row, at_index row 0 ≠ state) before →
      at_index row 0 = state →
      getStateAbbrev states state = at_index row 1.
Proof.
  split; [apply getStateAbbrev_miss|].
  intros before row after -> Hbefore Hrow. by apply getStateAbbrev_first.
Qed.

Lemma getStateAbbrev_first_match_witness :
  Forall (λ row, at_index row 0 ≠ VStr "Idaho") two_states
  ∧ getStateAbbrev two_states (VStr "Idaho") = VBool false
  ∧ getStateAbbrev two_states (VStr "Oregon") = VStr "OR".
Proof.
  assert (Forall (λ row, at_index row 0 ≠ VStr "Idaho") two_states) as Hmiss
    by (repeat constructor; done).
  split; [done|].
  destruct (getStateAbbrev_first_match two_states (VStr "Idaho")) as [Hf _].
  split; [by apply Hf|].
  destruct (getStateAbbrev_first_match two_states (VStr "Oregon")) as [_ Hm].
  apply (Hm [[VStr "Washington"; VStr "WA"]] [VStr "Oregon"; VStr "OR"] []);
    [reflexivity|repeat constructor; done|reflexivity].
Defined.

(** X11: when no two rows of the table have the same first entry, asking
    for the first entry of any row returns the second entry of that row. *)
Theorem getStateAbbrev_lookup (states : list (list value)) (row : list value) :
  NoDup ((λ row, at_index row 0) <$> states) → row ∈ states →
  getStateAbbrev states (at_index row 0) = at_index row 1.
Proof.
  intros Hnodup (before & after & ->)%list_elem_of_split.
  apply getStateAbbrev_first; [|done].
  rewrite fmap_app, fmap_cons in Hnodup.
  apply NoDup_app in Hnodup as (_ & Hdisj & _).
  apply Forall_forall. intros row' Hin Heq.
  apply (Hdisj (at_index row 0)).
  - apply list_elem_of_fmap. by exists row'.
  - apply list_elem_of_here.
Qed.

Lemma getStateAbbrev_lookup_witness :
  NoDup ((λ row, at_index row 0) <$> two_states)
  ∧ [VStr "Oregon"; VStr "OR"] ∈ two_states
  ∧ getStateAbbrev two_states (VStr "Oregon") = VStr "OR".
Proof.
  assert (NoDup ((λ row, at_index row 0) <$> two_states)) as Hnodup.
  { unfold two_states. rewrite !fmap_cons, fmap_nil.
    apply NoDup_cons_2; [|apply NoDup_singleton].
    intros Hin%list_elem_of_singleton. discriminate. }
  assert ([VStr "Oregon"; VStr "OR"] ∈ two_states) as Hin
    by apply list_elem_of_further, list_elem_of_here.
  split; [done|]. split; [done|].
  exact (getStateAbbrev_lookup two_states _ Hnodup Hin).
Defined.

End MiddlewareMore.

(** * Further properties of the incident aggregator *)

Module AggregatorMoreFacts.
Import Store Aggregator AggregatorSpec Handler.
Import StoreFacts AggregatorFacts AttachFacts AggregateFacts.

Lemma forEach_app {S A} (xs ys : list A) (f : A → St S unit) s :
  forEach (xs ++ ys) f s
  = match forEach xs f s with
    | Return (_, s') => forEach ys f s'
    | Throw e => Throw e
    end.
Proof.
  revert s. induction xs as [|x xs IH]; intros s; [done|].
  simpl app. rewrite !forEach_cons. destruct (f x s) as [[[] s']|]; [|done].
  apply IH.
Qed.

Lemma attach_all_length k content h incidents :
  rows h incidents →
  length (attach_all k content h incidents) = length h + length incidents.
Proof.
  revert h. induction incidents as [|incident incidents IH]; intros h Hrows.
  - simpl. lia.
  - pose proof (attach_step_rows k content h incident _ Hrows) as Hrows'.
    apply Forall_cons in Hrows as [(l & props & -> & Hl) Hrows].
    apply Forall_cons in Hrows' as [_ Hrows'].
    simpl in *. rewrite Hl in *. rewrite IH by done.
    rewrite attach_length. lia.
Qed.

(** Without links no type of force is read, and without types of force no
    link is. *)
Lemma build_tags_no_links tofTypes h :
  build_tags tofTypes [] h = Return ([], h).
Proof.
  unfold build_tags. generalize (@nil (gmap string value)).
  induction tofTypes as [|tof tofTypes IH]; intros acc; [done|].
  rewrite foldM_cons. simpl foldM at 1. rewrite ret_run. apply IH.
Qed.

Lemma build_tags_no_definitions typeLinks h :
  build_tags [] typeLinks h = Return ([], h).
Proof. reflexivity. Qed.

Lemma tags_of_no_links h tofTypes : tags_of h tofTypes [] = [].
Proof.
  unfold tags_of. induction tofTypes as [|tof tofTypes IH]; [done|]. done.
Qed.

(** The handler once [tagsArray] is built. *)
Lemma aggregate_run_tags incidents tagDefs tagLinks sources h tags :
  build_tags tagDefs tagLinks h = Return (tags, h) →
  rows h incidents → rows h sources →
  aggregate incidents tagDefs tagLinks sources h
  = Return (incidents,
            attach_all "src" (src_content sources)
              (attach_all "categories" (categories_content tags) h incidents)
              incidents).
Proof.
  intros Htags Hi Hs. unfold aggregate, showallincidents.
  rewrite (bind_Return _ _ _ _ _ Htags).
  rewrite (bind_Return _ _ _ _ _ (attach_categories_run _ _ _ Hi)).
  apply attach_sources_run; by apply attach_all_rows.
Qed.

Lemma final_heap_length h incidents tagDefs tagLinks sources :
  rows h incidents →
  length (final_heap h incidents tagDefs tagLinks sources)
  = length h + 2 * length incidents.
Proof.
  intros Hi. unfold final_heap.
  rewrite !attach_all_length by (done || by apply attach_all_rows). lia.
Qed.

(** What [aggregate] leaves of the rows it was given. *)
Lemma aggregated_row h incidents tagDefs tagLinks sources h' v :
  aggregated h incidents tagDefs tagLinks sources h' → is_row h v →
  is_row h' v
  ∧ ∀ k, k ≠ "categories" → k ≠ "src" → prop_of h' v k = prop_of h v k.
Proof.
  intros Hag (l & props & -> & Hl).
  destruct (decide (VRef l ∈ incidents)) as [Hin|Hnin].
  - destruct (aggregated_incident _ _ _ _ _ _ Hag l props Hin Hl)
      as (lc & ls & _ & _ & Hcell & _).
    split; [by eexists _, _|]. intros k Hk1 Hk2.
    unfold prop_of, props_of. rewrite Hcell, Hl.
    by rewrite !field_insert_ne.
  - pose proof (aggregated_frame _ _ _ _ _ _ Hag l
                  (lookup_lt_Some _ _ _ Hl) Hnin) as Hcell.
    split; [exists l, props; by rewrite Hcell|]. intros k _ _.
    unfold prop_of, props_of. by rewrite Hcell.
Qed.

Lemma aggregated_rows h incidents tagDefs tagLinks sources h' vs :
  aggregated h incidents tagDefs tagLinks sources h' → rows h vs → rows h' vs.
Proof.
  intros Hag Hvs. eapply Forall_impl; [done|]. intros v Hv.
  by destruct (aggregated_row _ _ _ _ _ _ _ Hag Hv).
Qed.

Lemma aggregated_resolves h incidents tagDefs tagLinks sources h' link tof :
  aggregated h incidents tagDefs tagLinks sources h' →
  is_row h link → is_row h tof →
  resolves h' link tof = resolves h link tof.
Proof.
  intros Hag Hlink Htof. unfold resolves.
  destruct (aggregated_row _ _ _ _ _ _ _ Hag Hlink) as [_ ->]; [|done..].
  by destruct (aggregated_row _ _ _ _ _ _ _ Hag Htof) as [_ ->].
Qed.

Lemma aggregated_belongs h incidents tagDefs tagLinks sources h' row incident :
  aggregated h incidents tagDefs tagLinks sources h' →
  is_row h row → is_row h incident →
  belongs h' row incident = belongs h row incident.
Proof.
  intros Hag Hrow Hinc. unfold belongs.
  destruct (aggregated_row _ _ _ _ _ _ _ Hag Hrow) as [_ ->]; [|done..].
  by destruct (aggregated_row _ _ _ _ _ _ _ Hag Hinc) as [_ ->].
Qed.

Lemma aggregated_categories_of h incidents tagDefs tagLinks sources h'
    defs links incident :
  aggregated h incidents tagDefs tagLinks sources h' →
  rows h defs → rows h links → is_row h incident →
  categories_of h' defs links incident = categories_of h defs links incident.
Proof.
  intros Hag Hdefs Hlinks Hinc. unfold categories_of.
  induction Hdefs as [|tof defs Htof _ IH]; [done|]. simpl. rewrite IH.
  f_equal. clear IH.
  induction Hlinks as [|link links Hlink _ IH]; [done|]. simpl. rewrite IH.
  rewrite (aggregated_resolves _ _ _ _ _ _ _ _ Hag Hlink Htof).
  rewrite (aggregated_belongs _ _ _ _ _ _ _ _ Hag Hlink Hinc).
  by destruct (aggregated_row _ _ _ _ _ _ _ Hag Htof) as [_ ->].
Qed.

Lemma aggregated_src_of h incidents tagDefs tagLinks sources h' srcs incident :
  aggregated h incidents tagDefs tagLinks sources h' →
  rows h srcs → is_row h incident →
  src_of h' srcs incident = src_of h srcs incident.
Proof.
  intros Hag Hsrcs Hinc. unfold src_of.
  induction Hsrcs as [|source srcs Hsource _ IH]; [done|].
  rewrite !filter_cons, IH.
  by rewrite (aggregated_belongs _ _ _ _ _ _ _ _ Hag Hsource Hinc).
Qed.

Lemma categories_of_elem h tagDefs tagLinks incident x :
  x ∈ categories_of h tagDefs tagLinks incident
  ↔ ∃ tof link, tof ∈ tagDefs ∧ link ∈ tagLinks
      ∧ resolves h link tof = true ∧ belongs h link incident = true
      ∧ x = prop_of h tof "type_of_force".
Proof.
  unfold categories_of. rewrite list_elem_of_In, in_flat_map. split.
  - intros (tof & Htof & (link & Hlink & Hx)%in_flat_map).
    exists tof, link. rewrite !list_elem_of_In.
    destruct (resolves h link tof), (belongs h link incident);
      simpl in Hx; try done.
    destruct Hx as [<-|[]]. done.
  - intros (tof & link & Htof & Hlink & Hr & Hb & ->).
    exists tof. rewrite <-list_elem_of_In. split; [done|].
    apply in_flat_map. exists link. rewrite <-list_elem_of_In.
    split; [done|]. rewrite Hr, Hb. by left.
Qed.

End AggregatorMoreFacts.

Module AggregatorMore.
Import Store Aggregator AggregatorSpec AggregatorInputs Handler.
Import StoreFacts AggregatorFacts AttachFacts AggregateFacts OrderFacts.
Import AggregatorMoreFacts.

Lemma rows_eval h vs : rowsb h vs = true → rows h vs.
Proof.
  unfold rowsb, rows. induction vs as [|v vs IH]; simpl; [done|].
  intros [Hv Hvs]%andb_prop. constructor; [|by apply IH].
  destruct v as [| | | | |l]; try done. simpl in Hv.
  destruct (h !! l) as [[props|]|] eqn:Hl; try done. by eexists _, _.
Qed.

(** X12: an incident that is [undefined] or [null] makes the handler fail:
    when the types of force, the links and the incidents before it are row
    objects, line 85 throws a [TypeError], whatever comes after it and
    whatever the sources are, and the reply is the status 500 with the
    message [Request Error]. *)
Theorem null_incident_fails before bad after tagDefs tagLinks sources h :
  rows h tagDefs → rows h tagLinks → rows h before →
  bad = VUndef ∨ bad = VNull →
  aggregate (before ++ bad :: after) tagDefs tagLinks sources h
  = Throw TypeError
  ∧ respond (before ++ bad :: after) sources tagDefs tagLinks h
    = Failure 500 "Request Error".
Proof.
  intros Ht Hl Hb Hbad.
  assert (aggregate (before ++ bad :: after) tagDefs tagLinks sources h
          = Throw TypeError) as Hthrow.
  { unfold aggregate, showallincidents.
    rewrite (bind_Return _ _ _ _ _ (build_tags_run _ _ _ Ht Hl)).
    rewrite bind_run. unfold attach_categories. rewrite forEach_app.
    pose proof (attach_categories_run (tags_of h tagDefs tagLinks) before h Hb)
      as Hrun.
    unfold attach_categories in Hrun. rewrite Hrun, forEach_cons.
    by destruct Hbad as [-> | ->]. }
  split; [done|]. unfold respond. fold (aggregate (before ++ bad :: after)
    tagDefs tagLinks sources). by rewrite Hthrow.
Qed.

Lemma null_incident_fails_witness :
  rows h0 [def_tear_gas] ∧ rows h0 [link_tear_gas] ∧ rows h0 [the_incident]
  ∧ respond ([the_incident] ++ VNull :: []) [the_source] [def_tear_gas]
      [link_tear_gas] h0
    = Failure 500 "Request Error".
Proof.
  assert (rows h0 [def_tear_gas]) as Ht by (apply rows_eval; reflexivity).
  assert (rows h0 [link_tear_gas]) as Hl by (apply rows_eval; reflexivity).
  assert (rows h0 [the_incident]) as Hb by (apply rows_eval; reflexivity).
  split; [done|]. split; [done|]. split; [done|].
  apply (null_incident_fails [the_incident] VNull [] _ _ [the_source] h0 Ht Hl Hb).
  by right.
Defined.

(** X13: when there are no links, or no types of force, the other of the
    two collections is not read at all (it may hold anything), the handler
    returns, and every record has an empty [categories] array. *)
Theorem no_links_or_no_definitions incidents tagDefs tagLinks sources h :
  rows h incidents → rows h sources →
  tagDefs = [] ∨ tagLinks = [] →
  ∃ h',
    aggregate incidents tagDefs tagLinks sources h = Return (incidents, h')
    ∧ ∀ record, record ∈ incidents → categories_in h' record = Some [].
Proof.
  intros Hi Hs Hempty.
  assert (build_tags tagDefs tagLinks h = Return ([], h)
          ∧ tags_of h tagDefs tagLinks = []) as [Htags Hnil].
  { destruct Hempty as [-> | ->]; [done|].
    split; [apply build_tags_no_links|apply tags_of_no_links]. }
  exists (final_heap h incidents tagDefs tagLinks sources). split.
  - rewrite (aggregate_run_tags _ _ _ _ _ _ Htags Hi Hs).
    unfold final_heap. by rewrite Hnil.
  - intros record Hin.
    pose proof (final_heap_aggregated h incidents tagDefs tagLinks sources Hi Hs)
      as Hag.
    assert (is_row h record) as Hrow by eauto using rows_elem.
    destruct (aggregated_record _ _ _ _ _ _ _ Hag Hrow Hin) as (_ & -> & _).
    f_equal. rewrite <-categories_for_tags_of. by rewrite Hnil.
Qed.

Lemma no_links_or_no_definitions_witness :
  rows h0 [the_incident] ∧ rows h0 [the_source]
  ∧ ∃ h',
      aggregate [the_incident] [VNull; VNum 3] [] [the_source] h0
      = Return ([the_incident], h')
      ∧ categories_in h' the_incident = Some [].
Proof.
  assert (rows h0 [the_incident]) as Hi by (apply rows_eval; reflexivity).
  assert (rows h0 [the_source]) as Hs by (apply rows_eval; reflexivity).
  split; [done|]. split; [done|].
  destruct (no_links_or_no_definitions [the_incident] [VNull; VNum 3] []
              [the_source] h0 Hi Hs) as (h' & Hrun & Hcats); [by right|].
  exists h'. split; [done|]. apply Hcats, list_elem_of_here.
Defined.

(** X14: the join is exact.  The [src] of a record holds a source exactly
    when the source is in the collection and has the [incident_id] of the
    record, and its [categories] hold a label exactly when a link with the
    [incident_id] of the record names a type of force with that label.  Rows
    that belong to no incident show up nowhere. *)
Theorem join_exact incidents tagDefs tagLinks sources h :
  rows h incidents → rows h tagDefs → rows h tagLinks → rows h sources →
  ∃ h',
    aggregate incidents tagDefs tagLinks sources h = Return (incidents, h')
    ∧ ∀ record, record ∈ incidents →
        ∃ categories src,
          categories_in h' record = Some categories
          ∧ src_in h' record = Some src
          ∧ (∀ source, source ∈ src
               ↔ source ∈ sources ∧ belongs h source record = true)
          ∧ (∀ label, label ∈ categories
               ↔ ∃ tof link, tof ∈ tagDefs ∧ link ∈ tagLinks
                   ∧ resolves h link tof = true
                   ∧ belongs h link record = true
                   ∧ label = prop_of h tof "type_of_force").
Proof.
  intros Hi Ht Hl Hs.
  destruct (aggregate_spec _ _ _ _ _ Hi Ht Hl Hs) as (h' & Hrun & Hag).
  exists h'. split; [done|]. intros record Hin.
  assert (is_row h record) as Hrow by eauto using rows_elem.
  destruct (aggregated_record _ _ _ _ _ _ _ Hag Hrow Hin) as (_ & Hcats & Hsrc & _).
  eexists _, _. split; [exact Hcats|]. split; [exact Hsrc|]. split.
  - intros source. unfold src_of. rewrite list_elem_of_filter. tauto.
  - intros label. apply categories_of_elem.
Qed.

Lemma join_exact_witness :
  rows h0 [the_incident] ∧ rows h0 [def_tear_gas; def_baton]
  ∧ rows h0 [link_tear_gas; link_dangling] ∧ rows h0 [the_source]
  ∧ ∃ h',
      aggregate [the_incident] [def_tear_gas; def_baton]
        [link_tear_gas; link_dangling] [the_source] h0
      = Return ([the_incident], h')
      ∧ categories_in h' the_incident = Some [VStr "tear_gas"]
      ∧ src_in h' the_incident = Some [the_source].
Proof.
  assert (rows h0 [the_incident]) as Hi by (apply rows_eval; reflexivity).
  assert (rows h0 [def_tear_gas; def_baton]) as Ht
    by (apply rows_eval; reflexivity).
  assert (rows h0 [link_tear_gas; link_dangling]) as Hl
    by (apply rows_eval; reflexivity).
  assert (rows h0 [the_source]) as Hs by (apply rows_eval; reflexivity).
  split_and!; try done.
  destruct (join_exact _ _ _ _ _ Hi Ht Hl Hs) as (h' & Hrun & Hall).
  exists h'. split; [done|].
  clear Hall. vm_compute in Hrun. injection Hrun as <-.
  split; vm_compute; reflexivity.
Defined.

(** X15: the handler can be run again on the store it left: the incidents
    already carry [categories] and [src], the second run replaces them, and
    every record ends with the same categories and the same sources as
    after the first run. *)
Theorem aggregate_repeatable incidents tagDefs tagLinks sources h :
  rows h incidents → rows h tagDefs → rows h tagLinks → rows h sources →
  ∃ h' h'',
    aggregate incidents tagDefs tagLinks sources h = Return (incidents, h')
    ∧ aggregate incidents tagDefs tagLinks sources h' = Return (incidents, h'')
    ∧ ∀ record, record ∈ incidents →
        categories_in h'' record = categories_in h' record
        ∧ src_in h'' record = src_in h' record
        ∧ is_Some (categories_in h' record) ∧ is_Some (src_in h' record).
Proof.
  intros Hi Ht Hl Hs.
  destruct (aggregate_spec _ _ _ _ _ Hi Ht Hl Hs) as (h' & Hrun & Hag).
  pose proof (aggregated_rows _ _ _ _ _ _ _ Hag Hi) as Hi'.
  pose proof (aggregated_rows _ _ _ _ _ _ _ Hag Ht) as Ht'.
  pose proof (aggregated_rows _ _ _ _ _ _ _ Hag Hl) as Hl'.
  pose proof (aggregated_rows _ _ _ _ _ _ _ Hag Hs) as Hs'.
  destruct (aggregate_spec _ _ _ _ _ Hi' Ht' Hl' Hs') as (h'' & Hrun' & Hag').
  exists h', h''. split; [done|]. split; [done|]. intros record Hin.
  assert (is_row h record) as Hrow by eauto using rows_elem.
  assert (is_row h' record) as Hrow' by eauto using rows_elem.
  destruct (aggregated_record _ _ _ _ _ _ _ Hag Hrow Hin) as (_ & -> & -> & _).
  destruct (aggregated_record _ _ _ _ _ _ _ Hag' Hrow' Hin) as (_ & -> & -> & _).
  rewrite (aggregated_categories_of _ _ _ _ _ _ _ _ _ Hag Ht Hl Hrow).
  rewrite (aggregated_src_of _ _ _ _ _ _ _ _ Hag Hs Hrow).
  by split_and!.
Qed.

Lemma aggregate_repeatable_witness :
  rows h0 [the_incident] ∧ rows h0 [def_tear_gas; def_baton]
  ∧ rows h0 [link_tear_gas; link_baton] ∧ rows h0 [the_source]
  ∧ ∃ h' h'',
      aggregate [the_incident] [def_tear_gas; def_baton]
        [link_tear_gas; link_baton] [the_source] h0
      = Return ([the_incident], h')
      ∧ aggregate [the_incident] [def_tear_gas; def_baton]
          [link_tear_gas; link_baton] [the_source] h'
        = Return ([the_incident], h'')
      ∧ categories_in h'' the_incident = categories_in h' the_incident
      ∧ src_in h'' the_incident = src_in h' the_incident.
Proof.
  assert (rows h0 [the_incident]) as Hi by (apply rows_eval; reflexivity).
  assert (rows h0 [def_tear_gas; def_baton]) as Ht
    by (apply rows_eval; reflexivity).
  assert (rows h0 [link_tear_gas; link_baton]) as Hl
    by (apply rows_eval; reflexivity).
  assert (rows h0 [the_source]) as Hs by (apply rows_eval; reflexivity).
  split_and!; try done.
  destruct (aggregate_repeatable _ _ _ _ _ Hi Ht Hl Hs)
    as (h' & h'' & Hrun & Hrun' & Hall).
  exists h', h''. split; [done|]. split; [done|].
  destruct (Hall the_incident) as (Hc & Hsrc & _); [apply list_elem_of_here|].
  by split.
Defined.

(** X16: the handler creates two arrays per incident and nothing else: the
    store grows by twice the number of incidents, and the arrays that were
    in the store before the call keep their slots. *)
Theorem two_arrays_per_incident incidents tagDefs tagLinks sources h :
  rows h incidents → rows h tagDefs → rows h tagLinks → rows h sources →
  ∃ h',
    aggregate incidents tagDefs tagLinks sources h = Return (incidents, h')
    ∧ length h' = length h + 2 * length incidents
    ∧ ∀ l items, h !! l = Some (Array items) → h' !! l = Some (Array items).
Proof.
  intros Hi Ht Hl Hs.
  exists (final_heap h incidents tagDefs tagLinks sources).
  split; [by apply aggregate_run|]. split; [by apply final_heap_length|].
  intros l items Hcell.
  pose proof (final_heap_aggregated h incidents tagDefs tagLinks sources Hi Hs)
    as Hag.
  rewrite (aggregated_frame _ _ _ _ _ _ Hag); [done|by eapply lookup_lt_Some|].
  intros Hin. apply (rows_elem _ _ _ Hi) in Hin as (l' & props & [= <-] & Hl').
  congruence.
Qed.

Lemma two_arrays_per_incident_witness :
  rows h0 [the_incident; the_incident] ∧ rows h0 [def_tear_gas]
  ∧ rows h0 [link_tear_gas] ∧ rows h0 [the_source]
  ∧ ∃ h',
      aggregate [the_incident; the_incident] [def_tear_gas] [link_tear_gas]
        [the_source] h0
      = Return ([the_incident; the_incident], h')
      ∧ length h' = 12.
Proof.
  assert (rows h0 [the_incident; the_incident]) as Hi
    by (apply rows_eval; reflexivity).
  assert (rows h0 [def_tear_gas]) as Ht by (apply rows_eval; reflexivity).
  assert (rows h0 [link_tear_gas]) as Hl by (apply rows_eval; reflexivity).
  assert (rows h0 [the_source]) as Hs by (apply rows_eval; reflexivity).
  split_and!; try done.
  destruct (two_arrays_per_incident _ _ _ _ _ Hi Ht Hl Hs)
    as (h' & Hrun & Hlen & _).
  exists h'. split; [done|]. by rewrite Hlen.
Defined.

(** X17: with no incidents the handler replies the empty array and leaves
    the store untouched; the sources are not read (they may hold anything). *)
Theorem no_incidents tagDefs tagLinks sources h :
  rows h tagDefs → rows h tagLinks →
  aggregate [] tagDefs tagLinks sources h = Return ([], h)
  ∧ respond [] sources tagDefs tagLinks h = Json 200 [] h.
Proof.
  intros Ht Hl.
  assert (aggregate [] tagDefs tagLinks sources h = Return ([], h)) as Hrun.
  { unfold aggregate, showallincidents.
    by rewrite (bind_Return _ _ _ _ _ (build_tags_run _ _ _ Ht Hl)). }
  split; [done|]. unfold respond.
  fold (aggregate [] tagDefs tagLinks sources). by rewrite Hrun.
Qed.

Lemma no_incidents_witness :
  rows h0 [def_tear_gas] ∧ rows h0 [link_tear_gas]
  ∧ respond [] [VNull] [def_tear_gas] [link_tear_gas] h0 = Json 200 [] h0.
Proof.
  assert (rows h0 [def_tear_gas]) as Ht by (apply rows_eval; reflexivity).
  assert (rows h0 [link_tear_gas]) as Hl by (apply rows_eval; reflexivity).
  split; [done|]. split; [done|].
  exact (proj2 (no_incidents [def_tear_gas] [link_tear_gas] [VNull] h0 Ht Hl)).
Defined.

End AggregatorMore.
